(** * The fileset writer of [persist/fs/write.go]

    A shallow embedding of the writer that persists one block of one shard
    as an info file, an index file, a data file and a checkpoint marker,
    together with the properties of its life cycle
    ([NewWriter], [Open], [Write], [WriteAll], [Close]) and of its options
    value ([writerOptions]).

    The operating system is modelled explicitly: a table of file objects, the
    contents of the files on disk, a script of upcoming failures and the
    trace of every call the writer made.  Methods of the writer are state
    transformers over the pair of the writer structure and that system. *)

From Stdlib Require Import ZArith List Lia.
From Stdlib.Init Require Import Byte.
From stdpp Require Import base gmap strings list pretty.

Set Default Proof Using "Type".

(** ** Results of Go calls *)

(** A Go [error] value that is not [nil]; the text is the message. *)
Definition error := string.

(** Outcome of a call: a value (the error is [nil]), a non-nil error, or a
    run-time panic (nil dereference, index out of range). *)
Inductive Res (A : Type) : Type :=
| Ok (a : A)
| Err (e : error)
| Panic.
Arguments Ok {A} a.
Arguments Err {A} e.
Arguments Panic {A}.

(** State transformers with errors: the state survives a failure, as the
    fields of a Go structure survive an early [return err]. *)
Definition M (S A : Type) : Type := S -> Res A * S.

Definition ret {S A : Type} (a : A) : M S A := fun s => (Ok a, s).

Definition bind {S A B : Type} (m : M S A) (k : A -> M S B) : M S B :=
  fun s =>
    match m s with
    | (Ok a, s') => k a s'
    | (Err e, s') => (Err e, s')
    | (Panic, s') => (Panic, s')
    end.

Definition fail {S A : Type} (e : error) : M S A := fun s => (Err e, s).
Definition panic {S A : Type} : M S A := fun s => (Panic, s).
Definition get {S : Type} : M S S := fun s => (Ok s, s).
Definition modify {S : Type} (f : S -> S) : M S unit := fun s => (Ok tt, f s).

(** A call whose error is dropped by the caller ([fd.Close()] as a
    statement): only its effect on the state remains. *)
Definition ignore {S A : Type} (m : M S A) : M S unit :=
  fun s => (Ok tt, snd (m s)).

Notation "x <- m ;; k" := (bind m (fun x => k))
  (at level 100, m at next level, right associativity).
Notation "m ;;; k" := (bind m (fun _ => k))
  (at level 100, right associativity).

(** ** Machine integers *)

Definition int64 (z : Z) : Z := ((z + 2 ^ 63) mod 2 ^ 64 - 2 ^ 63)%Z.
Definition uint64 (z : Z) : Z := (z mod 2 ^ 64)%Z.

Definition byte_of_Z (z : Z) : byte :=
  match Byte.of_N (Z.to_N (z mod 256)) with
  | Some b => b
  | None => Byte.x00
  end.

(** [binary.ByteOrder] with its two standard implementations. *)
Inductive ByteOrder := LittleEndian | BigEndian.

Definition le_bytes (v : Z) : list byte :=
  map (fun i => byte_of_Z (Z.shiftr v (8 * Z.of_nat i))) (seq 0 8).

Definition order_bytes (o : ByteOrder) (v : Z) : list byte :=
  match o with
  | LittleEndian => le_bytes v
  | BigEndian => rev (le_bytes v)
  end.

(** [order.PutUint64(b, v)]: overwrites the first eight bytes of [b]; an
    index out of range when [b] is shorter. *)
Definition PutUint64 {S : Type} (o : ByteOrder) (b : list byte) (v : Z)
  : M S (list byte) :=
  if (length b <? 8)%nat then panic
  else ret (order_bytes o (uint64 v) ++ drop 8 b).

(** ** The operating system *)

(** The calls the writer makes into the [os] package. *)
Inductive Call :=
| CallMkdirAll (dir : string) (perm : Z)
| CallOpenFile (path : string) (perm : Z)
| CallWrite (f : option nat) (data : list byte)
| CallClose (f : option nat).

(** An [*os.File]: the path it was opened at and whether it is still open.
    File objects are never reused: a handle is an index in [fdtab]. *)
Record FileObj := mkFileObj { fo_path : string; fo_open : bool }.

(** The system: the files on disk, the directories, the file objects, the
    script of outcomes of the coming system calls ([Some e] makes the next
    one fail with [e]) and the trace of the calls made so far, each with the
    error it returned. *)
Record OS := mkOS {
  files : gmap string (list byte);
  dirs : gmap string Z;
  fdtab : list FileObj;
  faults : list (option error);
  trace : list (Call * option error)
}.

Definition set_files (f : gmap string (list byte)) (os : OS) : OS :=
  mkOS f (dirs os) (fdtab os) (faults os) (trace os).
Definition set_dirs (d : gmap string Z) (os : OS) : OS :=
  mkOS (files os) d (fdtab os) (faults os) (trace os).
Definition set_fdtab (t : list FileObj) (os : OS) : OS :=
  mkOS (files os) (dirs os) t (faults os) (trace os).
Definition set_faults (f : list (option error)) (os : OS) : OS :=
  mkOS (files os) (dirs os) (fdtab os) f (trace os).
Definition log (c : Call) (r : option error) (os : OS) : OS :=
  mkOS (files os) (dirs os) (fdtab os) (faults os) (trace os ++ [(c, r)]).

Definition ErrInvalid : error := "invalid argument".
Definition ErrClosed : error := "file already closed".

Definition err_of {A : Type} (r : Res A) : option error :=
  match r with
  | Err e => Some e
  | _ => None
  end.

(** Runs a call and appends it, with its outcome, to the trace. *)
Definition logged {A : Type} (c : Call) (m : M OS A) : M OS A :=
  fun os => (fst (m os), log c (err_of (fst (m os))) (snd (m os))).

(** One system call.  The head of [faults] decides whether it fails; a
    failing system call has no effect. *)
Definition syscall (effect : OS -> OS) : M OS unit :=
  fun os =>
    match faults os with
    | Some e :: rest => (Err e, set_faults rest os)
    | _ => (Ok tt, effect (set_faults (tail (faults os)) os))
    end.

Definition os_MkdirAll (dir : string) (perm : Z) : M OS unit :=
  logged (CallMkdirAll dir perm)
    (syscall (fun os =>
       match dirs os !! dir with
       | Some _ => os
       | None => set_dirs (<[dir := perm]> (dirs os)) os
       end)).

(** [os.OpenFile(path, O_WRONLY|O_CREATE|O_TRUNC, perm)]: the file is
    created or emptied and a new file object is returned. *)
Definition os_OpenFile (path : string) (perm : Z) : M OS nat :=
  logged (CallOpenFile path perm)
    (os <- get ;;
     syscall (fun os => set_files (<[path := []]> (files os))
                (set_fdtab (fdtab os ++ [mkFileObj path true]) os)) ;;;
     ret (length (fdtab os))).

(** Looks up the open file object behind a handle, as every method of
    [*os.File] does first. *)
Definition checkValid (f : option nat) : M OS (nat * string) :=
  fun os =>
    match f with
    | None => (Err ErrInvalid, os)
    | Some fd =>
        match fdtab os !! fd with
        | Some (mkFileObj p true) => (Ok (fd, p), os)
        | Some (mkFileObj _ false) => (Err ErrClosed, os)
        | None => (Err ErrInvalid, os)
        end
    end.

Definition append_file (p : string) (data : list byte) (os : OS) : OS :=
  set_files (<[p := default [] (files os !! p) ++ data]> (files os)) os.

Definition close_fd (fd : nat) (p : string) (os : OS) : OS :=
  set_fdtab (<[fd := mkFileObj p false]> (fdtab os)) os.

Definition file_Write (f : option nat) (data : list byte) : M OS unit :=
  logged (CallWrite f data)
    (h <- checkValid f ;; syscall (append_file (snd h) data)).

Definition file_Close (f : option nat) : M OS unit :=
  logged (CallClose f)
    (h <- checkValid f ;; syscall (close_fd (fst h) (snd h))).

(** ** Writer options *)

Definition ModeDir : Z := Z.shiftl 1 31.
Definition defaultNewFileMode : Z := 438.                      (* 0666 *)
Definition defaultNewDirectoryMode : Z := Z.lor ModeDir 493.   (* 0755 *)

Record writerOptions := mkWriterOptions {
  opt_newFileMode : Z;
  opt_newDirectoryMode : Z
}.

(** The heap of [writerOptions] structures; a [*writerOptions] is an index
    in it, and an index outside it stands for the nil pointer. *)
Abbreviation Heap := (list writerOptions).

Definition alloc (v : writerOptions) : M Heap nat :=
  fun h => (Ok (length h), h ++ [v]).

Definition deref (o : nat) : M Heap writerOptions :=
  fun h =>
    match h !! o with
    | Some v => (Ok v, h)
    | None => (Panic, h)
    end.

Definition NewWriterOptions : M Heap nat :=
  alloc (mkWriterOptions defaultNewFileMode defaultNewDirectoryMode).

Definition NewFileMode (o : nat) (value : Z) : M Heap nat :=
  opts <- deref o ;;
  alloc (mkWriterOptions value (opt_newDirectoryMode opts)).

Definition GetNewFileMode (o : nat) : M Heap Z :=
  opts <- deref o ;; ret (opt_newFileMode opts).

Definition NewDirectoryMode (o : nat) (value : Z) : M Heap nat :=
  opts <- deref o ;;
  alloc (mkWriterOptions (opt_newFileMode opts) value).

Definition GetNewDirectoryMode (o : nat) : M Heap Z :=
  opts <- deref o ;; ret (opt_newDirectoryMode opts).

(** ** The records of the codec *)

(** [schema.IndexInfo]: the summary record of a block. *)
Record IndexInfo := mkIndexInfo {
  Start : Z;
  BlockSize : Z;
  Entries : Z
}.

(** [schema.IndexEntry]: the record of one entry. *)
Record IndexEntry := mkIndexEntry {
  Idx : Z;
  Size : Z
}.

(** ** What the writer takes from the rest of the package

    The path resolver, the file suffixes, the byte order, the length of the
    index scratch buffer, the time conversion and the serialisation library
    are declared outside [write.go]; the writer is verified for any choice
    of them.

    The order in which Go ranges over a map is not fixed by the language
    and may change from one range to the next: [rangeMap] gives the order a
    range takes in a given state of the system, and all that is known of it
    is that it visits every entry of the map once. *)
Class Env := {
  Time : Type;
  zeroTime : Time;
  ToNanoseconds : Time -> Z;
  ShardDirPath : string -> Z -> string;
  filepathFromTime : string -> Time -> string -> string;
  infoFileSuffix : string;
  indexFileSuffix : string;
  dataFileSuffix : string;
  checkpointFileSuffix : string;
  idxLen : nat;
  endianness : ByteOrder;
  proto_IndexInfo : IndexInfo -> Res (list byte);
  proto_IndexEntry : IndexEntry -> Res (list byte);
  proto_Varint : Z -> list byte;
  rangeMap : forall A : Type, OS -> gmap string A -> list (string * A);
  rangeMap_perm : forall (A : Type) (os : OS) (m : gmap string A),
    rangeMap A os m ≡ₚ map_to_list m
}.
Arguments rangeMap {_ _} os m.

Section Writer.
Context {env : Env}.

Record writer := mkWriter {
  blockSize : Z;
  filePathPrefix : string;
  newFileMode : Z;
  newDirectoryMode : Z;
  infoFd : option nat;
  indexFd : option nat;
  dataFd : option nat;
  checkpointFilePath : string;
  start : Time;
  currIdx : Z;
  infoBuffer : list byte;
  indexBuffer : list byte;
  varintBuffer : list byte;
  idxData : list byte
}.

Definition set_infoFd (v : option nat) (w : writer) : writer :=
  mkWriter (blockSize w) (filePathPrefix w) (newFileMode w)
    (newDirectoryMode w) v (indexFd w) (dataFd w) (checkpointFilePath w)
    (start w) (currIdx w) (infoBuffer w) (indexBuffer w) (varintBuffer w)
    (idxData w).
Definition set_indexFd (v : option nat) (w : writer) : writer :=
  mkWriter (blockSize w) (filePathPrefix w) (newFileMode w)
    (newDirectoryMode w) (infoFd w) v (dataFd w) (checkpointFilePath w)
    (start w) (currIdx w) (infoBuffer w) (indexBuffer w) (varintBuffer w)
    (idxData w).
Definition set_dataFd (v : option nat) (w : writer) : writer :=
  mkWriter (blockSize w) (filePathPrefix w) (newFileMode w)
    (newDirectoryMode w) (infoFd w) (indexFd w) v (checkpointFilePath w)
    (start w) (currIdx w) (infoBuffer w) (indexBuffer w) (varintBuffer w)
    (idxData w).
Definition set_checkpointFilePath (v : string) (w : writer) : writer :=
  mkWriter (blockSize w) (filePathPrefix w) (newFileMode w)
    (newDirectoryMode w) (infoFd w) (indexFd w) (dataFd w) v
    (start w) (currIdx w) (infoBuffer w) (indexBuffer w) (varintBuffer w)
    (idxData w).
Definition set_start (v : Time) (w : writer) : writer :=
  mkWriter (blockSize w) (filePathPrefix w) (newFileMode w)
    (newDirectoryMode w) (infoFd w) (indexFd w) (dataFd w)
    (checkpointFilePath w) v (currIdx w) (infoBuffer w) (indexBuffer w)
    (varintBuffer w) (idxData w).
Definition set_currIdx (v : Z) (w : writer) : writer :=
  mkWriter (blockSize w) (filePathPrefix w) (newFileMode w)
    (newDirectoryMode w) (infoFd w) (indexFd w) (dataFd w)
    (checkpointFilePath w) (start w) v (infoBuffer w) (indexBuffer w)
    (varintBuffer w) (idxData w).
Definition set_infoBuffer (v : list byte) (w : writer) : writer :=
  mkWriter (blockSize w) (filePathPrefix w) (newFileMode w)
    (newDirectoryMode w) (infoFd w) (indexFd w) (dataFd w)
    (checkpointFilePath w) (start w) (currIdx w) v (indexBuffer w)
    (varintBuffer w) (idxData w).
Definition set_idxData (v : list byte) (w : writer) : writer :=
  mkWriter (blockSize w) (filePathPrefix w) (newFileMode w)
    (newDirectoryMode w) (infoFd w) (indexFd w) (dataFd w)
    (checkpointFilePath w) (start w) (currIdx w) (infoBuffer w)
    (indexBuffer w) (varintBuffer w) v.

(** The fields of the writer that hold a file: what a [**os.File] given to
    [openFiles] points at. *)
Inductive FdField := InfoFd | IndexFd | DataFd.

Definition setFd (f : FdField) : option nat -> writer -> writer :=
  match f with
  | InfoFd => set_infoFd
  | IndexFd => set_indexFd
  | DataFd => set_dataFd
  end.

Definition getFd (f : FdField) : writer -> option nat :=
  match f with
  | InfoFd => infoFd
  | IndexFd => indexFd
  | DataFd => dataFd
  end.

(** The state a method of the writer runs in. *)
Definition St : Type := writer * OS.

Definition this : M St writer := fun st => (Ok (fst st), st).
Definition update (f : writer -> writer) : M St unit :=
  fun st => (Ok tt, (f (fst st), snd st)).
Definition liftOS {A : Type} (m : M OS A) : M St A :=
  fun st => (fst (m (snd st)), (fst st, snd (m (snd st)))).
Definition liftRes {S A : Type} (r : Res A) : M S A := fun s => (r, s).

(** [NewWriter]: a nil [options] is replaced by [NewWriterOptions()]. *)
Definition NewWriter (blockSize : Z) (filePathPrefix : string)
    (options : option nat) : M Heap writer :=
  options <- match options with
             | None => NewWriterOptions
             | Some o => ret o
             end ;;
  fileMode <- GetNewFileMode options ;;
  dirMode <- GetNewDirectoryMode options ;;
  ret (mkWriter blockSize filePathPrefix fileMode dirMode
         None None None "" zeroTime 0 [] [] []
         (replicate idxLen Byte.x00)).

Definition openWritable (filePath : string) : M St nat :=
  w <- this ;;
  liftOS (os_OpenFile filePath (newFileMode w)).

(** Modelled from the spec: [openFiles] is defined outside [write.go].
    It opens the named files one after the other and stores each handle
    through its pointer; when one fails, the handles already opened are
    released and that error is returned.  [openEach] is the loop, over the
    entries in the order the range takes them. *)
Fixpoint openEach (opener : string -> M St nat)
    (fds : list (string * FdField)) (opened : list nat) : M St unit :=
  match fds with
  | [] => ret tt
  | (filePath, fdPtr) :: rest =>
      fun st =>
        match opener filePath st with
        | (Ok fd, st') =>
            (update (setFd fdPtr (Some fd)) ;;;
             openEach opener rest (fd :: opened)) st'
        | (Err e, st') =>
            (fold_right (fun fd k => ignore (liftOS (file_Close (Some fd))) ;;; k)
               (fail e) opened) st'
        | (Panic, st') => (Panic, st')
        end
  end.

(** [openFiles] takes a Go map from paths to pointers and ranges over it:
    the order of the opens is the order of that range. *)
Definition openFiles (opener : string -> M St nat)
    (fds : gmap string FdField) : M St unit :=
  fun st => openEach opener (rangeMap (snd st) fds) [] st.

(** Modelled from the spec: [closeFiles] is defined outside [write.go].
    It closes the handles in the order given and returns the first error. *)
Fixpoint closeFiles (fds : list (option nat)) : M St unit :=
  match fds with
  | [] => ret tt
  | fd :: rest => liftOS (file_Close fd) ;;; closeFiles rest
  end.

(** Modelled from the spec: the statement of [Open] that resets the entry
    counter [currIdx] to 0 is not in [write.go]. *)
Definition resetCounter : M St unit := update (set_currIdx 0).

Definition Open (shard : Z) (blockStart : Time) : M St unit :=
  w <- this ;;
  let shardDir := ShardDirPath (filePathPrefix w) shard in
  liftOS (os_MkdirAll shardDir (newDirectoryMode w)) ;;;
  update (set_start blockStart) ;;;
  resetCounter ;;;
  update (set_checkpointFilePath
            (filepathFromTime shardDir blockStart checkpointFileSuffix)) ;;;
  openFiles openWritable
    (<[filepathFromTime shardDir blockStart dataFileSuffix := DataFd]>
       (<[filepathFromTime shardDir blockStart indexFileSuffix := IndexFd]>
          (<[filepathFromTime shardDir blockStart infoFileSuffix := InfoFd]>
             ∅))).

(** Modelled from the spec: the body of [writeData] is not in [write.go].
    It writes the bytes of one segment to the data file. *)
Definition writeData (d : list byte) : M St unit :=
  w <- this ;;
  liftOS (file_Write (dataFd w) d).

(** The first loop of [WriteAll]: the lengths are added as [int64]. *)
Definition segmentsSize (data : list (list byte)) : Z :=
  fold_left (fun size d => int64 (size + Z.of_nat (length d))) data 0%Z.

Fixpoint writeSegments (data : list (list byte)) : M St unit :=
  match data with
  | [] => ret tt
  | d :: rest => writeData d ;;; writeSegments rest
  end.

(** The bytes of one entry in the index file: the index as a fixed-width
    value, then the record prefixed by its length. *)
Definition indexOutput (idxData entryBytes : list byte) : list byte :=
  idxData ++ proto_Varint (Z.of_nat (length entryBytes)) ++ entryBytes.

(** Modelled from the spec: the end of [WriteAll], after the loop over the
    segments, is not in [write.go].  The pending output of the entry is
    appended to the index file and the counter advances by one. *)
Definition commitEntry (entry : IndexEntry) : M St unit :=
  entryBytes <- liftRes (proto_IndexEntry entry) ;;
  w <- this ;;
  liftOS (file_Write (indexFd w) (indexOutput (idxData w) entryBytes)) ;;;
  update (set_currIdx (int64 (currIdx w + 1))).

Definition WriteAll (key : string) (data : list (list byte)) : M St unit :=
  let size := segmentsSize data in
  if (size =? 0)%Z then ret tt
  else
    w <- this ;;
    let entry := mkIndexEntry (currIdx w) size in
    b <- PutUint64 endianness (idxData w) (currIdx w) ;;
    update (set_idxData b) ;;;
    writeSegments data ;;;
    commitEntry entry.

(** [Write]: nothing to do for an empty byte sequence, otherwise
    [WriteAll] with the one-element sequence. *)
Definition Write (key : string) (data : list byte) : M St unit :=
  if (length data =? 0)%nat then ret tt
  else WriteAll key [data].

(** [proto.Buffer.Marshal]: the encoding is appended to the buffer. *)
Definition Buffer_Marshal (buf : list byte) (enc : Res (list byte))
  : M St (list byte) :=
  bytes <- liftRes enc ;; ret (buf ++ bytes).

Definition writeCheckpointFile : M St unit :=
  w <- this ;;
  fd <- openWritable (checkpointFilePath w) ;;
  ignore (liftOS (file_Close (Some fd))).

(** The record [Close] builds from the fields of the writer. *)
Definition closeInfo (w : writer) : IndexInfo :=
  mkIndexInfo (ToNanoseconds (start w)) (blockSize w) (currIdx w).

(** [Close]: each failing step returns its error at once. *)
Definition Close : M St unit :=
  w <- this ;;
  let info := closeInfo w in
  b <- Buffer_Marshal (infoBuffer w) (proto_IndexInfo info) ;;
  update (set_infoBuffer b) ;;;
  w <- this ;;
  liftOS (file_Write (infoFd w) (infoBuffer w)) ;;;
  closeFiles [infoFd w; indexFd w; dataFd w] ;;;
  writeCheckpointFile.

(** *** What a block looks like to its caller *)

(** A caller's sequence of writes, each one made only when the one before
    returned nil. *)
Fixpoint WriteAlls (calls : list (string * list (list byte))) : M St unit :=
  match calls with
  | [] => ret tt
  | (key, data) :: rest => WriteAll key data ;;; WriteAlls rest
  end.

(** A caller's sequence of writes that goes on whatever each returns. *)
Fixpoint WriteAlls_any (calls : list (string * list (list byte))) (st : St)
  : St :=
  match calls with
  | [] => st
  | (key, data) :: rest => WriteAlls_any rest (snd (WriteAll key data st))
  end.

(** The four paths of the fileset of a block. *)
Definition infoPath (prefix : string) (shard : Z) (t : Time) : string :=
  filepathFromTime (ShardDirPath prefix shard) t infoFileSuffix.
Definition indexPath (prefix : string) (shard : Z) (t : Time) : string :=
  filepathFromTime (ShardDirPath prefix shard) t indexFileSuffix.
Definition dataPath (prefix : string) (shard : Z) (t : Time) : string :=
  filepathFromTime (ShardDirPath prefix shard) t dataFileSuffix.
Definition checkpointPath (prefix : string) (shard : Z) (t : Time) : string :=
  filepathFromTime (ShardDirPath prefix shard) t checkpointFileSuffix.

(** The map literal [Open] gives to [openFiles]: of two entries with the
    same path the later one stays. *)
Definition fdMap (prefix : string) (shard : Z) (t : Time)
  : gmap string FdField :=
  <[dataPath prefix shard t := DataFd]>
    (<[indexPath prefix shard t := IndexFd]>
       (<[infoPath prefix shard t := InfoFd]> ∅)).

(** What the resolver owes the writer: four different paths. *)
Definition distinctPaths (prefix : string) (shard : Z) (t : Time) : Prop :=
  NoDup [infoPath prefix shard t; indexPath prefix shard t;
         dataPath prefix shard t; checkpointPath prefix shard t].

(** The sizes of the entries a sequence of writes records: the writes of
    total size zero record none. *)
Definition entrySizes (calls : list (string * list (list byte))) : list Z :=
  List.filter (fun size => negb (size =? 0)%Z)
    (map (fun c => segmentsSize (snd c)) calls).

(** The index records of a block, read off the sizes in write order. *)
Definition entriesFrom (first : Z) (sizes : list Z) : list IndexEntry :=
  imap (fun i size => mkIndexEntry (int64 (first + Z.of_nat i)) size) sizes.

(** The bytes of a record in the index file; [scratch] is what follows the
    first eight bytes of the scratch buffer [idxData]. *)
Definition entryOutput (scratch : list byte) (e : IndexEntry) : list byte :=
  match proto_IndexEntry e with
  | Ok enc =>
      indexOutput (order_bytes endianness (uint64 (Idx e)) ++ scratch) enc
  | _ => []
  end.

(** The bytes the writes put in the data file: the segments of every
    write whose size, as [WriteAll] computes it, is not zero. *)
Definition dataOutput (calls : list (string * list (list byte))) : list byte :=
  concat (map (fun c => if (segmentsSize (snd c) =? 0)%Z then []
                        else concat (snd c)) calls).


(** The total length of the segments of a write, as a number of bytes. *)
Definition totalLength (data : list (list byte)) : Z :=
  Z.of_nat (sum_list (map length data)).

(** The trace of closing every handle of [fds] with success. *)
Definition closed_ok (fds : list (option nat)) : list (Call * option error) :=
  map (fun f => (CallClose f, None)) fds.

(** The fields of [Open]'s writer before any file is opened. *)
Definition opening (shard : Z) (blockStart : Time) (w : writer) : writer :=
  set_checkpointFilePath (checkpointPath (filePathPrefix w) shard blockStart)
    (set_currIdx 0 (set_start blockStart w)).

(** The fields of the writer that are not file handles. *)
Definition plain (w : writer) :=
  (blockSize w, filePathPrefix w, newFileMode w, newDirectoryMode w,
   checkpointFilePath w, start w, currIdx w, infoBuffer w, idxData w).

(** The index and data handles of the writer are open file objects at the
    paths [px] and [pd]. *)
Definition attached (w : writer) (os : OS) (px pd : string) : Prop :=
  exists j k,
    indexFd w = Some j /\ dataFd w = Some k /\
    fdtab os !! j = Some (mkFileObj px true) /\
    fdtab os !! k = Some (mkFileObj pd true).

(** The fields of the writer that a write leaves alone. *)
Definition header (w : writer) :=
  (blockSize w, filePathPrefix w, newFileMode w, newDirectoryMode w,
   infoFd w, indexFd w, dataFd w, checkpointFilePath w, start w,
   infoBuffer w).


Definition withFaults (f : list (option error)) (st : St) : St :=
  (fst st, set_faults f (snd st)).

End Writer.

(** ** A concrete environment

    Paths in the style of the package ([<prefix>/<shard>/<start>-<suffix>]),
    little-endian order, a fixed-width stand-in for the serialisation
    library and maps ranged over from their last key to their first; used
    to run the writer on examples. *)
Fixpoint varint_bytes (fuel : nat) (x : Z) : list byte :=
  match fuel with
  | O => []
  | S fuel' =>
      if (x <? 128)%Z then [byte_of_Z x]
      else byte_of_Z (Z.lor (Z.land x 127) 128)
             :: varint_bytes fuel' (Z.shiftr x 7)
  end.

Definition exampleEnv : Env := {|
  Time := Z;
  zeroTime := 0%Z;
  ToNanoseconds := fun t => t;
  ShardDirPath := fun prefix shard => prefix +:+ "/" +:+ pretty shard;
  filepathFromTime := fun dir t suffix =>
    dir +:+ "/" +:+ pretty t +:+ "-" +:+ suffix;
  infoFileSuffix := "info.db";
  indexFileSuffix := "index.db";
  dataFileSuffix := "data.db";
  checkpointFileSuffix := "checkpoint.db";
  idxLen := 8;
  endianness := LittleEndian;
  proto_IndexInfo := fun i =>
    Ok (le_bytes (Start i) ++ le_bytes (BlockSize i) ++ le_bytes (Entries i));
  proto_IndexEntry := fun e => Ok (le_bytes (Idx e) ++ le_bytes (Size e));
  proto_Varint := fun x => varint_bytes 10 (uint64 x);
  rangeMap := fun A _ m => reverse (map_to_list m);
  rangeMap_perm := fun A _ m => reverse_Permutation (map_to_list m)
|}.

Definition emptyOS : OS := mkOS ∅ ∅ [] [] [].

Definition exampleWriter : writer (env := exampleEnv) :=
  mkWriter (env := exampleEnv) 7200 "/var/db" defaultNewFileMode
    defaultNewDirectoryMode None None None "" 0%Z 0%Z [] [] []
    (replicate 8 Byte.x00).

(** The writer of the example after [Open] and two writes. *)
Definition exampleOpened : St (env := exampleEnv) :=
  snd ((Open (env := exampleEnv) 3 1000%Z ;;;
        WriteAll "seriesA" [replicate 10 Byte.x01] ;;;
        WriteAll "seriesC" [replicate 5 Byte.x02; replicate 5 Byte.x03])
         (exampleWriter, emptyOS)).

(** The same writer when the system is about to fail the close of the
    index file. *)
Definition exampleFailing : St (env := exampleEnv) :=
  withFaults [None; None; Some "EIO"] exampleOpened.


(** The two writes of the example that record an entry. *)
Definition exampleWrites : list (string * list (list byte)) :=
  [ ("seriesA", [replicate 10 Byte.x01]);
    ("seriesC", [replicate 5 Byte.x02; replicate 5 Byte.x03]) ].

(** [Open] on the writer of the example, and a block of writes after it. *)
Definition exampleOpen : Res unit * St (env := exampleEnv) :=
  Open (env := exampleEnv) 3 1000%Z (exampleWriter, emptyOS).

Definition exampleBlock (calls : list (string * list (list byte)))
  : Res unit * St (env := exampleEnv) :=
  WriteAlls calls (snd exampleOpen).

Definition scenario : M (St (env:=exampleEnv)) unit :=
  Open (env:=exampleEnv) 3 1000%Z ;;;
  WriteAll "seriesA" [replicate 10 Byte.x01] ;;;
  WriteAll "seriesB" [[]] ;;;
  WriteAll "seriesC" [replicate 5 Byte.x02; replicate 5 Byte.x03] ;;;
  Close.

(** The state the scenario ends in: a complete block with its checkpoint. *)
Definition exampleClosed : St (env := exampleEnv) :=
  snd (scenario (exampleWriter, emptyOS)).

(** * Metadata of blocks in binary operations ([package logical])

    The helpers that merge and split the tags of two blocks.  The methods of
    [models.Tags], the bounds of a block and the order in which Go ranges
    over a map are declared outside the file and are taken as they come. *)
Module logical.

Record Tag := mkTag { Name : string; Value : string }.

(** [models.Tags]: a slice of tags. *)
Abbreviation Tags := (list Tag).

Class Models := {
  BoundsT : Type;
  zeroBounds : BoundsT;
  Bounds_Equals : BoundsT -> BoundsT -> bool;
  (** the fields of [block.SeriesMeta] other than [Tags] *)
  SeriesRest : Type;
  TagMap : Tags -> gmap string Tag;
  Add : Tags -> Tags -> Tags;
  Get : Tags -> string -> option string;
  WithoutKeys : Tags -> list string -> Tags;
  FromMap : gmap string string -> Tags;
  (** the tags of a map in the order a [range] visits them *)
  rangeTags : gmap string Tag -> list Tag;
  IDWithKeys : Tags -> list string -> Z;
  IDWithExcludes : Tags -> list string -> Z
}.

Definition errMismatchedBounds : error := "block bounds are mismatched".
Definition errMismatchedStepCounts : error :=
  "block step counts are mismatched".

Section Logical.
Context {models : Models}.

(** [block.Metadata]. *)
Record Metadata := mkMetadata { Bounds : BoundsT; Tags_ : Tags }.

(** [block.SeriesMeta]. *)
Record SeriesMeta := mkSeriesMeta { sTags : Tags; sRest : SeriesRest }.

Definition setTags (t : Tags) (s : SeriesMeta) : SeriesMeta :=
  mkSeriesMeta t (sRest s).

Definition HashFunc (on : bool) (names : list string) : Tags -> Z :=
  if on then fun tags => IDWithKeys tags names
  else fun tags => IDWithExcludes tags names.

(** The loop of [combineMetaAndSeriesMeta] over the tags of the left
    metadata: [otherTags] loses the names that were met, [tags] collects
    the tags common to both sides, the other two lists the tags to give
    back to the series of each side. *)
Fixpoint commonTagsLoop (leftTags : Tags) (otherTags : gmap string Tag)
    (tags metaTagsToAdd otherMetaTagsToAdd : Tags)
  : gmap string Tag * Tags * Tags * Tags :=
  match leftTags with
  | [] => (otherTags, tags, metaTagsToAdd, otherMetaTagsToAdd)
  | t :: rest =>
      match otherTags !! Name t with
      | Some otherTag =>
          if negb (String.eqb (Value t) (Value otherTag)) then
            commonTagsLoop rest (delete (Name t) otherTags) tags
              (metaTagsToAdd ++ [t]) (otherMetaTagsToAdd ++ [otherTag])
          else
            commonTagsLoop rest (delete (Name t) otherTags) (tags ++ [t])
              metaTagsToAdd otherMetaTagsToAdd
      | None =>
          commonTagsLoop rest otherTags tags (metaTagsToAdd ++ [t])
            otherMetaTagsToAdd
      end
  end.

(** [for i, meta := range s { s[i].Tags = meta.Tags.Add(toAdd) }] on a
    slice given by the cells it covers in the memory of series. *)
Definition addToEach (toAdd : Tags) (slice : list nat)
    (mem : list SeriesMeta) : list SeriesMeta :=
  fold_left
    (fun m i => alter (fun s => setTags (Add (sTags s) toAdd) s) i m)
    slice mem.

(** [combineMetaAndSeriesMeta].  The two slices of series are lists of
    cells of [mem], which the function updates in place; they may share
    cells. *)
Definition combineMetaAndSeriesMeta (meta otherMeta : Metadata)
    (seriesMeta otherSeriesMeta : list nat) (mem : list SeriesMeta)
  : (Metadata * list nat * list nat * option error) * list SeriesMeta :=
  if negb (Bounds_Equals (Bounds meta) (Bounds otherMeta)) then
    ((mkMetadata zeroBounds [], [], [], Some errMismatchedBounds), mem)
  else
    let leftTags := Tags_ meta in
    let otherTags := TagMap (Tags_ otherMeta) in
    let '(otherTags, tags, metaTagsToAdd, otherMetaTagsToAdd) :=
      commonTagsLoop leftTags otherTags [] [] [] in
    let otherMetaTagsToAdd := otherMetaTagsToAdd ++ rangeTags otherTags in
    let meta := mkMetadata (Bounds meta) tags in
    let mem := addToEach metaTagsToAdd seriesMeta mem in
    let mem := addToEach otherMetaTagsToAdd otherSeriesMeta mem in
    ((meta, seriesMeta, otherSeriesMeta, None), mem).

(** A tag of the left metadata that the other side has with the same
    value, and the tag the other side has under its name with another
    value. *)
Definition agrees (other : gmap string Tag) (t : Tag) : bool :=
  match other !! Name t with
  | Some o => String.eqb (Value t) (Value o)
  | None => false
  end.

Definition rival (other : gmap string Tag) (t : Tag) : option Tag :=
  match other !! Name t with
  | Some o => if String.eqb (Value t) (Value o) then None else Some o
  | None => None
  end.

(** One series after [Tags.Add]. *)
Definition addTo (toAdd : Tags) (s : SeriesMeta) : SeriesMeta :=
  setTags (Add (sTags s) toAdd) s.

(** The inner loop of [DedupeMetadata]: the value of [distinct] when the
    loop over the other series ends or breaks. *)
Fixpoint distinctAmong (t : Tag) (metas : list SeriesMeta) : bool :=
  match metas with
  | [] => false
  | m :: rest =>
      match Get (sTags m) (Name t) with
      | Some val =>
          if negb (String.eqb val (Value t)) then true
          else distinctAmong t rest
      | None => true
      end
  end.

(** The outer loop of [DedupeMetadata] over the tags of the first series. *)
Fixpoint commonKeysLoop (firstTags : Tags) (others : list SeriesMeta)
    (commonKeys : list string) (commonTags : gmap string string)
  : list string * gmap string string :=
  match firstTags with
  | [] => (commonKeys, commonTags)
  | t :: rest =>
      if negb (distinctAmong t others) then
        commonKeysLoop rest others (commonKeys ++ [Name t])
          (<[Name t := Value t]> commonTags)
      else commonKeysLoop rest others commonKeys commonTags
  end.

(** [DedupeMetadata]: the slice is updated in place and returned. *)
Definition DedupeMetadata (seriesMeta : list SeriesMeta)
  : Tags * list SeriesMeta :=
  match seriesMeta with
  | [] => ([], seriesMeta)
  | first :: others =>
      let '(commonKeys, commonTags) :=
        commonKeysLoop (sTags first) others [] ∅ in
      (FromMap commonTags,
       map (fun meta => setTags (WithoutKeys (sTags meta) commonKeys) meta)
         seriesMeta)
  end.

(** A slice of tags: [len] cells of the memory of tags from [off] on. *)
Record TagSlice := mkTagSlice { off : nat; len : nat }.

(** The inner loop of [FlattenMetadata]: [metas.Tags[k] = v] for every
    series; an index out of range is a panic. *)
Fixpoint flattenAt (k : nat) (v : Tag) (series : list TagSlice)
    (mem : list Tag) : option (list Tag) :=
  match series with
  | [] => Some mem
  | metas :: rest =>
      if (k <? len metas)%nat then
        flattenAt k v rest (<[off metas + k := v]> mem)
      else None
  end.

(** The outer loop, [for k, v := range meta.Tags], from index [k] on with
    [n] tags left. *)
Fixpoint flattenFrom (k n : nat) (metaTags : TagSlice)
    (series : list TagSlice) (mem : list Tag) : option (list Tag) :=
  match n with
  | O => Some mem
  | S n' =>
      match mem !! (off metaTags + k)%nat with
      | Some v =>
          match flattenAt k v series mem with
          | Some mem' => flattenFrom (S k) n' metaTags series mem'
          | None => None
          end
      | None => None
      end
  end.

(** [FlattenMetadata] on the memory of tags; the series are returned as
    they were given, their tags changed in place.  [None] is a panic. *)
Definition FlattenMetadata (metaTags : TagSlice) (series : list TagSlice)
    (mem : list Tag) : option (list Tag) :=
  flattenFrom 0 (len metaTags) metaTags series mem.

Section Append.
(** The values of a step are [float64]; they are only moved around. *)
Context {V : Type}.

(** What [iter.Current()] gives at one position of the iterator. *)
Inductive StepResult :=
| StepOk (values : list V)
| StepErr (err : error).

(** [for _, idx := range idxArray { builder.AppendValue(index, values[idx]) }]:
    the builder is the list of the calls it received. *)
Fixpoint appendAt (index : nat) (values : list V) (idxArray : list Z)
    (builder : list (nat * V)) : Res unit * list (nat * V) :=
  match idxArray with
  | [] => (Ok tt, builder)
  | idx :: rest =>
      if (idx <? 0)%Z then (Panic, builder)
      else
        match values !! Z.to_nat idx with
        | Some v => appendAt index values rest (builder ++ [(index, v)])
        | None => (Panic, builder)
        end
  end.

(** [appendValuesAtIndices] from step [index] on; the iterator is the
    list of the results of [Current] at the positions [Next] reaches. *)
Fixpoint appendValuesFrom (index : nat) (idxArray : list Z)
    (iter : list StepResult) (builder : list (nat * V))
  : Res unit * list (nat * V) :=
  match iter with
  | [] => (Ok tt, builder)
  | StepErr err :: _ => (Err err, builder)
  | StepOk values :: rest =>
      match appendAt index values idxArray builder with
      | (Ok _, builder') => appendValuesFrom (S index) idxArray rest builder'
      | r => r
      end
  end.

(** The calls one step makes on the builder when its indices are within
    the values. *)
Definition stepCalls (idxArray : list Z) (index : nat) (values : list V)
  : list (nat * V) :=
  omap (fun idx => pair index <$> values !! Z.to_nat idx) idxArray.

Definition inRange (idxArray : list Z) (values : list V) : Prop :=
  Forall (fun idx => (0 <= idx < Z.of_nat (length values))%Z) idxArray.

Definition appendValuesAtIndices (idxArray : list Z)
    (iter : list StepResult) (builder : list (nat * V))
  : Res unit * list (nat * V) :=
  appendValuesFrom 0 idxArray iter builder.

End Append.

End Logical.

End logical.

(** A stand-in for the [models] and [block] packages, to run the helpers
    on examples: tags are added at the end, looked up by name from the
    front, and a map is ranged over in the order of its keys. *)
Definition exampleModels : logical.Models := {|
  logical.BoundsT := Z;
  logical.zeroBounds := 0%Z;
  logical.Bounds_Equals := Z.eqb;
  logical.SeriesRest := string;
  logical.TagMap := fun tags =>
    fold_left (fun m t => <[logical.Name t := t]> m) tags ∅;
  logical.Add := fun tags more => tags ++ more;
  logical.Get := fun tags name =>
    logical.Value <$>
      List.find (fun t => String.eqb (logical.Name t) name) tags;
  logical.WithoutKeys := fun tags keys =>
    List.filter
      (fun t => negb (existsb (String.eqb (logical.Name t)) keys)) tags;
  logical.FromMap := fun m =>
    map (fun kv => logical.mkTag (fst kv) (snd kv)) (map_to_list m);
  logical.rangeTags := fun m => map snd (map_to_list m);
  logical.IDWithKeys := fun _ _ => 0%Z;
  logical.IDWithExcludes := fun _ _ => 1%Z
|}.

Definition tagA1 : logical.Tag := logical.mkTag "a" "1".
Definition tagB2 : logical.Tag := logical.mkTag "b" "2".
Definition tagB3 : logical.Tag := logical.mkTag "b" "3".
Definition tagC4 : logical.Tag := logical.mkTag "c" "4".

Definition exampleSeries : list (logical.SeriesMeta (models := exampleModels)) :=
  [ logical.mkSeriesMeta (models := exampleModels) [tagA1; tagB2] "left";
    logical.mkSeriesMeta (models := exampleModels) [tagA1; tagB3] "right" ].

Definition exampleMeta : logical.Metadata (models := exampleModels) :=
  logical.mkMetadata (models := exampleModels) 10%Z [tagA1; tagB2].
Definition exampleOtherMeta : logical.Metadata (models := exampleModels) :=
  logical.mkMetadata (models := exampleModels) 10%Z [tagA1; tagB3; tagC4].

(** ** Proofs *)

Ltac unfold_monad :=
  unfold bind, ret, this, update, liftOS, liftRes, get, modify, ignore,
    fail, panic in *.

(** *** Machine integers *)

Lemma int64_small (z : Z) : (- 2 ^ 63 <= z < 2 ^ 63)%Z -> int64 z = z.
Proof.
  intros H. unfold int64.
  rewrite Z.mod_small by lia. lia.
Qed.



Lemma length_le_bytes (v : Z) : length (le_bytes v) = 8%nat.
Proof. reflexivity. Qed.

Lemma length_order_bytes (o : ByteOrder) (v : Z) :
  length (order_bytes o v) = 8%nat.
Proof. destruct o; reflexivity. Qed.

(** *** Writer options *)

Lemma alloc_lookup_old (v : writerOptions) (h : Heap) (p : nat) :
  (p < length h)%nat -> snd (alloc v h) !! p = h !! p.
Proof. intros Hp. simpl. by rewrite lookup_app_l. Qed.

Lemma alloc_lookup_new (v : writerOptions) (h : Heap) :
  snd (alloc v h) !! length h = Some v.
Proof.
  simpl. rewrite lookup_app_r by lia.
  by rewrite Nat.sub_diag.
Qed.

(** C8: a setter of the options returns a pointer to a new structure that
    holds the value set, and leaves every structure that was on the heap,
    the receiver included, as it was; the getters of the receiver answer as
    before.  For the file mode and for the directory mode. *)
Theorem options_setters_copy (h : Heap) (o : nat) (m : Z) (v : writerOptions) :
  h !! o = Some v ->
  (exists o' h',
      NewFileMode o m h = (Ok o', h') /\
      o' <> o /\
      fst (GetNewFileMode o' h') = Ok m /\
      fst (GetNewDirectoryMode o' h') = fst (GetNewDirectoryMode o h) /\
      fst (GetNewFileMode o h') = fst (GetNewFileMode o h) /\
      fst (GetNewDirectoryMode o h') = fst (GetNewDirectoryMode o h) /\
      forall p, (p < length h)%nat -> h' !! p = h !! p) /\
  (exists o' h',
      NewDirectoryMode o m h = (Ok o', h') /\
      o' <> o /\
      fst (GetNewDirectoryMode o' h') = Ok m /\
      fst (GetNewFileMode o' h') = fst (GetNewFileMode o h) /\
      fst (GetNewFileMode o h') = fst (GetNewFileMode o h) /\
      fst (GetNewDirectoryMode o h') = fst (GetNewDirectoryMode o h) /\
      forall p, (p < length h)%nat -> h' !! p = h !! p).
Proof.
  intros Ho.
  assert (Hlt : (o < length h)%nat) by (eapply lookup_lt_Some; eauto).
  split.
  - exists (length h), (h ++ [mkWriterOptions m (opt_newDirectoryMode v)]).
    unfold NewFileMode, GetNewFileMode, GetNewDirectoryMode, deref.
    unfold_monad. rewrite Ho. simpl.
    rewrite lookup_app_r by lia. rewrite Nat.sub_diag. simpl.
    rewrite lookup_app_l by lia. rewrite Ho. simpl.
    repeat split; try lia.
    intros p Hp. by rewrite lookup_app_l.
  - exists (length h), (h ++ [mkWriterOptions (opt_newFileMode v) m]).
    unfold NewDirectoryMode, GetNewFileMode, GetNewDirectoryMode, deref.
    unfold_monad. rewrite Ho. simpl.
    rewrite lookup_app_r by lia. rewrite Nat.sub_diag. simpl.
    rewrite lookup_app_l by lia. rewrite Ho. simpl.
    repeat split; try lia.
    intros p Hp. by rewrite lookup_app_l.
Qed.

Lemma options_setters_copy_witness :
  exists o' h',
    NewFileMode 0 420 [mkWriterOptions 438 493] = (Ok o', h') /\
    fst (GetNewFileMode o' h') = Ok 420%Z /\
    fst (GetNewFileMode 0 h') = Ok 438%Z.
Proof.
  destruct (options_setters_copy [mkWriterOptions 438 493] 0 420
              (mkWriterOptions 438 493) eq_refl)
    as [(o' & h' & H1 & _ & H2 & _ & H3 & _) _].
  exists o', h'. repeat split; [exact H1 | exact H2 | exact H3].
Defined.

Section WriterFacts.
Context {env : Env}.

(** C9: with a nil options argument [NewWriter] builds a writer whose file
    mode is 0666 and whose directory mode is 0755 with the directory bit,
    the writer it builds from [NewWriterOptions()]. *)
Theorem NewWriter_nil_defaults (bs : Z) (prefix : string) (h : Heap) :
  exists w h',
    NewWriter bs prefix None h = (Ok w, h') /\
    newFileMode w = 438%Z /\
    newDirectoryMode w = Z.lor (2 ^ 31) 493 /\
    Z.testbit (newDirectoryMode w) 31 = true /\
    Z.land (newDirectoryMode w) 511 = 493%Z /\
    blockSize w = bs /\ filePathPrefix w = prefix /\
    (o <- NewWriterOptions ;; NewWriter bs prefix (Some o)) h = (Ok w, h').
Proof.
  assert (E : forall v, deref (length h) (h ++ [v]) = (Ok v, h ++ [v])).
  { intros v. unfold deref. rewrite lookup_app_r by lia.
    by rewrite Nat.sub_diag. }
  unfold NewWriter, NewWriterOptions, GetNewFileMode, GetNewDirectoryMode,
    alloc, bind, ret.
  rewrite !E.
  eexists _, _. split; [reflexivity|].
  simpl. repeat split; reflexivity.
Qed.

(** *** Empty payloads *)

Lemma segmentsSize_zero (data : list (list byte)) :
  sum_list (map length data) = 0%nat -> segmentsSize data = 0%Z.
Proof.
  unfold segmentsSize.
  induction data as [|d data IH]; simpl; intros H; [reflexivity|].
  assert (length d = 0%nat) as -> by lia.
  change (int64 (0 + Z.of_nat 0)) with 0%Z.
  apply IH. lia.
Qed.

(** C4: a [WriteAll] whose segments have total length zero returns nil and
    leaves the writer and the system exactly as they were: nothing is
    written, [currIdx] keeps its value, and any later write behaves as if
    the empty one had not been made. *)
Theorem WriteAll_empty_noop (key : string) (data : list (list byte)) (st : St) :
  sum_list (map length data) = 0%nat ->
  WriteAll key data st = (Ok tt, st) /\
  forall key' data',
    WriteAll key' data' (snd (WriteAll key data st)) = WriteAll key' data' st.
Proof.
  intros H.
  assert (E : WriteAll key data st = (Ok tt, st)).
  { unfold WriteAll. rewrite (segmentsSize_zero _ H). reflexivity. }
  split; [exact E|]. intros. by rewrite E.
Qed.

(** C6: [Write] of one byte sequence is [WriteAll] of the one-element
    sequence: same result, same writer, same system afterwards. *)
Theorem Write_is_WriteAll (key : string) (data : list byte) (st : St) :
  Write key data st = WriteAll key [data] st.
Proof.
  unfold Write. destruct data as [|b data]; reflexivity.
Qed.

End WriterFacts.

Lemma WriteAll_empty_noop_witness :
  WriteAll (env := exampleEnv) "seriesB" [[]; []] (exampleWriter, emptyOS)
  = (Ok tt, (exampleWriter, emptyOS)).
Proof.
  apply (WriteAll_empty_noop (env := exampleEnv) "seriesB" [[]; []]
           (exampleWriter, emptyOS)).
  reflexivity.
Defined.

(** *** The calls into the system *)

Lemma file_Close_inv (f : option nat) (os : OS) (r : Res unit) (os' : OS) :
  file_Close f os = (r, os') ->
  trace os' = trace os ++ [(CallClose f, err_of r)] /\
  files os' = files os /\
  length (fdtab os') = length (fdtab os) /\
  r <> Panic /\
  (r = Ok tt -> exists fd, f = Some fd /\ (fd < length (fdtab os))%nat).
Proof.
  unfold file_Close, logged, bind, checkValid, syscall, close_fd.
  destruct f as [fd|]; simpl.
  - destruct (fdtab os !! fd) as [[p []]|] eqn:Hfd; simpl.
    + pose proof (lookup_lt_Some _ _ _ Hfd) as Hlt.
      destruct (faults os) as [|[e|] rest]; simpl;
        intros [= <- <-]; simpl; rewrite ?length_insert;
        repeat split; try done; eauto.
    + intros [= <- <-]; simpl. repeat split; done.
    + intros [= <- <-]; simpl. repeat split; done.
  - intros [= <- <-]; simpl. repeat split; done.
Qed.

Lemma file_Write_inv (f : option nat) (d : list byte) (os : OS)
    (r : Res unit) (os' : OS) :
  file_Write f d os = (r, os') ->
  trace os' = trace os ++ [(CallWrite f d, err_of r)] /\
  fdtab os' = fdtab os /\
  r <> Panic /\
  (forall e, r = Err e -> files os' = files os) /\
  (r = Ok tt ->
   exists fd p, f = Some fd /\ fdtab os !! fd = Some (mkFileObj p true) /\
     files os' = <[p := default [] (files os !! p) ++ d]> (files os)).
Proof.
  unfold file_Write, logged, bind, checkValid, syscall, append_file.
  destruct f as [fd|]; simpl.
  - destruct (fdtab os !! fd) as [[p []]|] eqn:Hfd; simpl.
    + destruct (faults os) as [|[e|] rest]; simpl;
        intros [= <- <-]; simpl; repeat split; try done; eauto.
    + intros [= <- <-]; simpl. repeat split; done.
    + intros [= <- <-]; simpl. repeat split; done.
  - intros [= <- <-]; simpl. repeat split; done.
Qed.

Lemma os_OpenFile_inv (p : string) (m : Z) (os : OS) (r : Res nat) (os' : OS) :
  os_OpenFile p m os = (r, os') ->
  trace os' = trace os ++ [(CallOpenFile p m, err_of r)] /\
  r <> Panic /\
  (forall e, r = Err e -> files os' = files os /\ fdtab os' = fdtab os) /\
  (forall fd, r = Ok fd ->
     fd = length (fdtab os) /\
     files os' = <[p := []]> (files os) /\
     fdtab os' = fdtab os ++ [mkFileObj p true]).
Proof.
  unfold os_OpenFile, logged, bind, get, ret, syscall.
  destruct (faults os) as [|[e|] rest]; simpl;
    intros [= <- <-]; simpl; repeat split; try done; congruence.
Qed.

Lemma os_MkdirAll_inv (d : string) (m : Z) (os : OS) (r : Res unit) (os' : OS) :
  os_MkdirAll d m os = (r, os') ->
  trace os' = trace os ++ [(CallMkdirAll d m, err_of r)] /\
  files os' = files os /\ fdtab os' = fdtab os /\ r <> Panic.
Proof.
  unfold os_MkdirAll, logged, syscall.
  destruct (faults os) as [|[e|] rest]; simpl;
    destruct (dirs os !! d); simpl; intros [= <- <-]; done.
Qed.

Lemma os_MkdirAll_pass (d : string) (m : Z) (os : OS)
    (rest : list (option error)) :
  faults os = None :: rest ->
  exists os1, os_MkdirAll d m os = (Ok tt, os1) /\ faults os1 = rest.
Proof.
  intros Hf. unfold os_MkdirAll, logged, syscall. rewrite Hf. simpl.
  eexists. split; [reflexivity|].
  destruct (dirs os !! d); reflexivity.
Qed.

Lemma os_OpenFile_fault (p : string) (m : Z) (os : OS) (e : error)
    (rest : list (option error)) :
  faults os = Some e :: rest -> fst (os_OpenFile p m os) = Err e.
Proof.
  intros Hf. unfold os_OpenFile, logged, bind, get, syscall. simpl.
  by rewrite Hf.
Qed.

(** From here on the calls are used through the lemmas above. *)
Opaque file_Close file_Write os_OpenFile os_MkdirAll.

Section CloseFacts.
Context {env : Env}.

Lemma closeFiles_inv (fds : list (option nat)) (w : writer) (os : OS)
    (r : Res unit) (st' : St) :
  closeFiles fds (w, os) = (r, st') ->
  fst st' = w /\ files (snd st') = files os /\
  length (fdtab (snd st')) = length (fdtab os) /\
  match r with
  | Ok _ =>
      trace (snd st') = trace os ++ closed_ok fds /\
      forall f, f ∈ fds -> exists fd, f = Some fd /\ (fd < length (fdtab os))%nat
  | Err e =>
      exists before f after,
        fds = before ++ f :: after /\
        trace (snd st') = trace os ++ closed_ok before ++ [(CallClose f, Some e)]
  | Panic => False
  end.
Proof.
  revert os. induction fds as [|f fds IH]; intros os; simpl.
  - unfold ret. intros [= <- <-]. simpl. rewrite app_nil_r.
    repeat split. intros f Hf. by apply elem_of_nil in Hf.
  - unfold bind at 1. unfold liftOS at 1. simpl.
    destruct (file_Close f os) as [r1 os1] eqn:E1.
    apply file_Close_inv in E1 as (Ht & Hf & Hl & Hp & Hok). simpl.
    destruct r1 as [[]|e1|].
    + intros E. apply IH in E as (Hw & Hf' & Hl' & Hr).
      split; [exact Hw|]. split; [congruence|]. split; [congruence|].
      destruct r as [u|e|]; [| |exact Hr].
      * destruct Hr as [Hr1 Hr2]. split.
        { rewrite Hr1, Ht. simpl. by rewrite <- app_assoc. }
        intros g Hg. apply elem_of_cons in Hg as [->|Hg].
        { by apply Hok. }
        destruct (Hr2 g Hg) as (fd & -> & Hlt). exists fd. split; [done|lia].
      * destruct Hr as (before & g & after & -> & Hr).
        exists (f :: before), g, after. split; [done|].
        rewrite Hr, Ht. simpl. by rewrite <- app_assoc.
    + intros [= <- <-]. simpl. repeat split; try done.
      exists [], f, fds. split; [done|]. by rewrite Ht.
    + done.
Qed.

Lemma writeCheckpointFile_eq (w : writer) (os : OS) :
  writeCheckpointFile (w, os) =
  match os_OpenFile (checkpointFilePath w) (newFileMode w) os with
  | (Ok fd, os1) => (Ok tt, (w, snd (file_Close (Some fd) os1)))
  | (Err e, os1) => (Err e, (w, os1))
  | (Panic, os1) => (Panic, (w, os1))
  end.
Proof.
  unfold writeCheckpointFile, openWritable, bind, this, liftOS, ignore.
  cbn [fst snd].
  destruct (os_OpenFile (checkpointFilePath w) (newFileMode w) os)
    as [[fd|e|] os1]; reflexivity.
Qed.

Lemma Close_eq (w : writer) (os : OS) :
  Close (w, os) =
  match proto_IndexInfo (closeInfo w) with
  | Ok enc =>
      let w1 := set_infoBuffer (infoBuffer w ++ enc) w in
      match file_Write (infoFd w) (infoBuffer w ++ enc) os with
      | (Ok _, os1) =>
          match closeFiles [infoFd w; indexFd w; dataFd w] (w1, os1) with
          | (Ok _, st2) => writeCheckpointFile st2
          | (Err e, st2) => (Err e, st2)
          | (Panic, st2) => (Panic, st2)
          end
      | (Err e, os1) => (Err e, (w1, os1))
      | (Panic, os1) => (Panic, (w1, os1))
      end
  | Err e => (Err e, (w, os))
  | Panic => (Panic, (w, os))
  end.
Proof.
  unfold Close, Buffer_Marshal, liftRes, bind, this, ret, update, liftOS.
  cbn [fst snd].
  destruct (proto_IndexInfo (closeInfo w)) as [enc|e|]; reflexivity.
Qed.

(** C1: [Close] asks the system to create a file only once, for the
    checkpoint, and only after the info, index and data handles were all
    closed with success; when one of these closes fails [Close] returns its
    error and no file is created; and the creation of the checkpoint (open,
    then close) ends the trace of a successful [Close]. *)
Theorem Close_checkpoint_after_closes (w : writer) (os : OS)
    (r : Res unit) (w' : writer) (os' : OS) :
  Close (w, os) = (r, (w', os')) ->
  exists new,
    trace os' = trace os ++ new /\
    (forall f e,
        f ∈ [infoFd w; indexFd w; dataFd w] ->
        (CallClose f, Some e) ∈ new ->
        r = Err e /\ (forall p m o, (CallOpenFile p m, o) ∉ new) /\
        forall p, files os' !! p = files os !! p \/
          exists fd, infoFd w = Some fd /\
                     fo_path <$> fdtab os !! fd = Some p) /\
    (forall p m o,
        (CallOpenFile p m, o) ∈ new ->
        p = checkpointFilePath w /\
        exists before after,
          new = before ++ (CallOpenFile p m, o) :: after /\
          (forall f, f ∈ [infoFd w; indexFd w; dataFd w] ->
                     (CallClose f, None) ∈ before) /\
          (forall p' m' o', (CallOpenFile p' m', o') ∉ before)) /\
    (r = Ok tt ->
        exists before fd o,
          new = before ++
                [(CallOpenFile (checkpointFilePath w) (newFileMode w), None);
                 (CallClose (Some fd), o)] /\
          files os' !! checkpointFilePath w = Some []).
Proof.
  rewrite Close_eq.
  destruct (proto_IndexInfo (closeInfo w)) as [enc|e|].
  2,3: intros [= <- <- <-]; exists []; rewrite app_nil_r;
       repeat split; try done; intros; exfalso; eapply not_elem_of_nil; eauto.
  cbv zeta.
  set (buf := infoBuffer w ++ enc).
  destruct (file_Write (infoFd w) buf os) as [r1 os1] eqn:E1.
  apply file_Write_inv in E1 as (Ht1 & Hfd1 & Hp1 & Hf1e & Hf1).
  assert (Hfiles1 : forall p,
            files os1 !! p = files os !! p \/
            exists fd, infoFd w = Some fd /\
                       fo_path <$> fdtab os !! fd = Some p).
  { intros p. destruct r1 as [[]|e1|]; [|left; by rewrite (Hf1e e1)|done].
    destruct (Hf1 eq_refl) as (fd & q & Hi & Hq & ->).
    destruct (decide (q = p)) as [->|Hne].
    - right. exists fd. by rewrite Hi, Hq.
    - left. by rewrite lookup_insert_ne. }
  destruct r1 as [[]|e1|]; [| |done].
  2: { intros [= <- <- <-]. eexists. split; [exact Ht1|]. simpl.
       split; [|split]; try done.
       - intros f e _ Hin. apply list_elem_of_singleton in Hin. done.
       - intros p m o Hin. apply list_elem_of_singleton in Hin. done. }
  destruct (closeFiles [infoFd w; indexFd w; dataFd w]
              (set_infoBuffer buf w, os1)) as [r2 [w2 os2]] eqn:E2.
  apply closeFiles_inv in E2 as (Hw2 & Hf2 & Hl2 & Hr2).
  cbn [fst snd err_of] in *.
  destruct r2 as [[]|e2|]; [| |done].
  2: { intros [= <- <- <-].
       destruct Hr2 as (before & g & after & Hfds & Ht2).
       eexists. split; [rewrite Ht2, Ht1, <- app_assoc; reflexivity|].
       split; [|split].
       - intros f e _ Hin. simpl in Hin.
         rewrite elem_of_cons, elem_of_app, list_elem_of_singleton in Hin.
         destruct Hin as [Hin|[Hin|Hin]]; [done| |].
         + unfold closed_ok in Hin. apply list_elem_of_fmap in Hin.
           destruct Hin as (? & ? & _). done.
         + injection Hin as -> ->. split; [done|]. split.
           * intros p m o Hin. simpl in Hin.
             rewrite elem_of_cons, elem_of_app, list_elem_of_singleton in Hin.
             destruct Hin as [Hin|[Hin|Hin]]; [done| |done].
             unfold closed_ok in Hin. apply list_elem_of_fmap in Hin.
             destruct Hin as (? & ? & _). done.
           * intros p. rewrite Hf2. by apply Hfiles1.
       - intros p m o Hin. exfalso. simpl in Hin.
         rewrite elem_of_cons, elem_of_app, list_elem_of_singleton in Hin.
         destruct Hin as [Hin|[Hin|Hin]]; [done| |done].
         unfold closed_ok in Hin. apply list_elem_of_fmap in Hin.
         destruct Hin as (? & ? & _). done.
       - done. }
  destruct Hr2 as [Ht2 Hvalid]. subst w2.
  rewrite writeCheckpointFile_eq.
  change (checkpointFilePath (set_infoBuffer buf w)) with (checkpointFilePath w).
  change (newFileMode (set_infoBuffer buf w)) with (newFileMode w).
  destruct (os_OpenFile (checkpointFilePath w) (newFileMode w) os2)
    as [r3 os3] eqn:E3.
  apply os_OpenFile_inv in E3 as (Ht3 & Hp3 & Hf3e & Hf3).
  set (closes := closed_ok [infoFd w; indexFd w; dataFd w]) in *.
  assert (Hcl : forall f, f ∈ [infoFd w; indexFd w; dataFd w] ->
                          (CallClose f, None) ∈ (CallWrite (infoFd w) buf, None) :: closes).
  { intros f Hf. apply elem_of_cons. right. unfold closes, closed_ok.
    apply list_elem_of_fmap. eauto. }
  assert (Hno : forall p m o e, (CallOpenFile p m, o) ∉ (CallWrite (infoFd w) buf, e) :: closes).
  { intros p m o e Hin. apply elem_of_cons in Hin as [Hin|Hin]; [done|].
    unfold closes, closed_ok in Hin. apply list_elem_of_fmap in Hin.
    destruct Hin as (? & ? & _). done. }
  assert (Hnc : forall f e, (CallClose f, Some e) ∉ (CallWrite (infoFd w) buf, None) :: closes).
  { intros f e Hin. apply elem_of_cons in Hin as [Hin|Hin]; [done|].
    unfold closes, closed_ok in Hin. apply list_elem_of_fmap in Hin.
    destruct Hin as (? & ? & _). done. }
  destruct r3 as [fd|e3|]; [| |done].
  2: { intros [= <- <- <-].
       exists (((CallWrite (infoFd w) buf, None) :: closes) ++
               [(CallOpenFile (checkpointFilePath w) (newFileMode w), Some e3)]).
       split; [rewrite Ht3, Ht2, Ht1; simpl; by rewrite <- !app_assoc|].
       split; [|split].
       - intros f e _ Hin. exfalso.
         rewrite elem_of_app, list_elem_of_singleton in Hin.
         destruct Hin as [Hin|Hin]; [by eapply Hnc|done].
       - intros p m o Hin.
         rewrite elem_of_app, list_elem_of_singleton in Hin.
         destruct Hin as [Hin|Hin]; [exfalso; by eapply Hno|].
         injection Hin as -> -> ->. split; [done|].
         eexists _, []. split; [reflexivity|]. split; [exact Hcl|].
         intros; apply Hno.
       - done. }
  destruct (Hf3 fd eq_refl) as (Hfd & Hfiles3 & Htab3).
  destruct (file_Close (Some fd) os3) as [r4 os4] eqn:E4.
  apply file_Close_inv in E4 as (Ht4 & Hf4 & _). cbn [fst snd].
  intros [= <- <- <-].
  exists (((CallWrite (infoFd w) buf, None) :: closes) ++
          [(CallOpenFile (checkpointFilePath w) (newFileMode w), None);
           (CallClose (Some fd), err_of r4)]).
  split.
  { rewrite Ht4, Ht3, Ht2, Ht1. simpl. by rewrite <- !app_assoc. }
  split; [|split].
  - intros f e Hf Hin. exfalso.
    apply elem_of_app in Hin as [Hin|Hin]; [by eapply Hnc|].
    apply elem_of_cons in Hin as [Hin|Hin]; [done|].
    apply list_elem_of_singleton in Hin.
    injection Hin as -> _.
    destruct (Hvalid _ Hf) as (fd' & [= <-] & Hlt). lia.
  - intros p m o Hin.
    apply elem_of_app in Hin as [Hin|Hin]; [exfalso; by eapply Hno|].
    apply elem_of_cons in Hin as [Hin|Hin];
      [|apply list_elem_of_singleton in Hin; done].
    injection Hin as -> -> ->. split; [done|].
    eexists _, [_]. split; [reflexivity|]. split; [exact Hcl|].
    intros; apply Hno.
  - intros _. eexists _, fd, _. split; [reflexivity|].
    rewrite Hf4, Hfiles3. apply lookup_insert_eq.
Qed.

End CloseFacts.

Lemma Close_checkpoint_after_closes_witness :
  exists new,
    trace (snd (snd (Close (fst exampleFailing, snd exampleFailing)))) =
    trace (snd exampleFailing) ++ new.
Proof.
  destruct (Close (fst exampleFailing, snd exampleFailing))
    as [r [w' os']] eqn:E.
  destruct (Close_checkpoint_after_closes _ _ _ _ _ E) as (new & Ht & _).
  exists new. exact Ht.
Defined.

Lemma bind_ignore {S A B : Type} (m : M S A) (k : M S B) (s : S) :
  (ignore m ;;; k) s = k (snd (m s)).
Proof. reflexivity. Qed.

Section OpenFacts.
Context {env : Env}.

Lemma liftOS_run {A : Type} (m : M OS A) (w : writer) (os : OS) :
  liftOS m (w, os) = (fst (m os), (w, snd (m os))).
Proof. reflexivity. Qed.

Lemma plain_setFd (f : FdField) (v : option nat) (w : writer) :
  plain (setFd f v w) = plain w.
Proof. by destruct f. Qed.

Lemma getFd_setFd_eq (f : FdField) (v : option nat) (w : writer) :
  getFd f (setFd f v w) = v.
Proof. by destruct f. Qed.

Lemma getFd_setFd_ne (f g : FdField) (v : option nat) (w : writer) :
  f <> g -> getFd f (setFd g v w) = getFd f w.
Proof. by destruct f, g. Qed.

Lemma Open_eq (shard : Z) (blockStart : Time) (w : writer) (os : OS) :
  Open shard blockStart (w, os) =
  match os_MkdirAll (ShardDirPath (filePathPrefix w) shard)
          (newDirectoryMode w) os with
  | (Ok _, os1) =>
      openEach openWritable
        (rangeMap os1 (fdMap (filePathPrefix w) shard blockStart))
        [] (opening shard blockStart w, os1)
  | (Err e, os1) => (Err e, (w, os1))
  | (Panic, os1) => (Panic, (w, os1))
  end.
Proof.
  unfold Open, openFiles, resetCounter, bind, this, update, liftOS.
  cbn [fst snd].
  destruct (os_MkdirAll (ShardDirPath (filePathPrefix w) shard)
              (newDirectoryMode w) os) as [[[]|e|] os1]; reflexivity.
Qed.

(** Releasing the handles opened so far returns the error that caused it
    and does not touch the writer. *)
Lemma release_inv (e : error) (opened : list nat) (w : writer) (os : OS) :
  exists os',
    fold_right
      (fun fd k => ignore (liftOS (file_Close (Some fd))) ;;; k)
      (fail e : M St unit) opened (w, os) = (Err e, (w, os')) /\
    files os' = files os.
Proof.
  revert os. induction opened as [|fd opened IH]; intros os; cbn [fold_right].
  - exists os. done.
  - rewrite bind_ignore, liftOS_run. cbn [fst snd].
    destruct (file_Close (Some fd) os) as [r1 os1] eqn:E1.
    apply file_Close_inv in E1 as (_ & Hf & _). cbn [snd].
    destruct (IH os1) as (os' & -> & Hf'). exists os'. split; [done|congruence].
Qed.

Lemma openEach_cons (p : string) (ptr : FdField)
    (rest : list (string * FdField))
    (opened : list nat) (w : writer) (os : OS) :
  openEach openWritable ((p, ptr) :: rest) opened (w, os) =
  match os_OpenFile p (newFileMode w) os with
  | (Ok fd, os1) =>
      openEach openWritable rest (fd :: opened) (setFd ptr (Some fd) w, os1)
  | (Err e, os1) =>
      fold_right
        (fun fd k => ignore (liftOS (file_Close (Some fd))) ;;; k)
        (fail e : M St unit) opened (w, os1)
  | (Panic, os1) => (Panic, (w, os1))
  end.
Proof.
  cbn [openEach]. unfold openWritable, bind, this, liftOS, update.
  cbn [fst snd].
  destruct (os_OpenFile p (newFileMode w) os) as [[fd|e|] os1]; reflexivity.
Qed.

Lemma openEach_plain (fds : list (string * FdField))
    (opened : list nat) (w : writer) (os : OS) (r : Res unit) (st' : St) :
  openEach openWritable fds opened (w, os) = (r, st') ->
  plain (fst st') = plain w /\ r <> Panic.
Proof.
  revert opened w os.
  induction fds as [|[p ptr] fds IH]; intros opened w os.
  - cbn [openEach]. unfold ret. intros [= <- <-]. done.
  - rewrite openEach_cons.
    destruct (os_OpenFile p (newFileMode w) os) as [r1 os1] eqn:E1.
    apply os_OpenFile_inv in E1 as (_ & Hp & _).
    destruct r1 as [fd|e|]; [| |done].
    + intros E. apply IH in E as [E1 E2]. split; [|done].
      rewrite E1. apply plain_setFd.
    + destruct (release_inv e opened w os1) as (os' & -> & _).
      intros [= <- <-]. done.
Qed.

Lemma fold_empty_lookup (fds : list (string * FdField))
    (m : gmap string (list byte)) (q : string) :
  fold_left (fun m f => <[fst f := []]> m) fds m !! q =
  if decide (q ∈ map fst fds) then Some [] else m !! q.
Proof.
  revert m. induction fds as [|[p fld] fds IH]; intros m; cbn [fold_left map].
  - rewrite decide_False; [done|]. apply not_elem_of_nil.
  - rewrite IH. cbn [fst].
    destruct (decide (q ∈ map fst fds)) as [Hin|Hnin].
    + rewrite decide_True; [done|]. apply elem_of_cons. by right.
    + destruct (decide (q = p)) as [->|Hne].
      * rewrite decide_True by (apply elem_of_cons; by left).
        apply lookup_insert_eq.
      * rewrite decide_False by (rewrite not_elem_of_cons; done).
        by apply lookup_insert_ne.
Qed.

(** The loop of [openFiles] when every open succeeds: one file object per
    entry, in the order of the entries, each stored in its field. *)
Lemma openEach_ok (fds : list (string * FdField)) :
  forall (opened : list nat) (w : writer) (os : OS) (w' : writer) (os' : OS),
    openEach openWritable fds opened (w, os) = (Ok tt, (w', os')) ->
    plain w' = plain w /\
    fdtab os' = fdtab os ++ map (fun f => mkFileObj (fst f) true) fds /\
    files os' = fold_left (fun m f => <[fst f := []]> m) fds (files os) /\
    trace os' =
      trace os ++
      map (fun f => (CallOpenFile (fst f) (newFileMode w), None)) fds /\
    (NoDup (map snd fds) ->
     (forall k p fld,
         fds !! k = Some (p, fld) ->
         getFd fld w' = Some (length (fdtab os) + k)%nat) /\
     (forall fld, fld ∉ map snd fds -> getFd fld w' = getFd fld w)).
Proof.
  induction fds as [|[p ptr] fds IH]; intros opened w os w' os'.
  - cbn [openEach]. unfold ret. intros [= <- <-]. cbn [map fold_left].
    rewrite !app_nil_r. repeat split; done.
  - rewrite openEach_cons.
    destruct (os_OpenFile p (newFileMode w) os) as [r1 os1] eqn:E1.
    apply os_OpenFile_inv in E1 as (Ht1 & _ & _ & H1).
    destruct r1 as [fd|e|]; [| |done].
    2: { destruct (release_inv e opened w os1) as (os2 & -> & _). done. }
    destruct (H1 fd eq_refl) as (-> & Hf1 & Hfd1). clear H1.
    intros E. apply IH in E as (Hp & Hfd & Hf & Ht & Hget).
    assert (Hm : newFileMode (setFd ptr (Some (length (fdtab os))) w)
                 = newFileMode w) by (by destruct ptr).
    cbn [map fold_left fst err_of] in *.
    split; [by rewrite Hp, plain_setFd|].
    split; [by rewrite Hfd, Hfd1, <- app_assoc|].
    split; [by rewrite Hf, Hf1|].
    split; [by rewrite Ht, Ht1, Hm, <- app_assoc|].
    intros Hnd. apply NoDup_cons in Hnd as [Hnin Hnd].
    destruct (Hget Hnd) as [Hin Hout]. split.
    + intros [|k] q fld Hk; cbn in Hk.
      * injection Hk as <- <-. rewrite (Hout ptr Hnin), getFd_setFd_eq.
        f_equal. lia.
      * rewrite (Hin k q fld Hk), Hfd1, length_app. cbn [length].
        f_equal. lia.
    + intros fld Hfld. rewrite not_elem_of_cons in Hfld.
      destruct Hfld as [Hne Hfld].
      rewrite (Hout fld Hfld). by apply getFd_setFd_ne.
Qed.

(** The map of [Open]: which path leads to which field. *)
Lemma fdMap_lookup (prefix : string) (shard : Z) (t : Time)
    (q : string) (fld : FdField) :
  fdMap prefix shard t !! q = Some fld ->
  match fld with
  | InfoFd => q = infoPath prefix shard t
  | IndexFd => q = indexPath prefix shard t
  | DataFd => q = dataPath prefix shard t
  end.
Proof.
  unfold fdMap.
  destruct (decide (q = dataPath prefix shard t)) as [->|H1].
  { rewrite lookup_insert_eq. by intros [= <-]. }
  rewrite lookup_insert_ne by done.
  destruct (decide (q = indexPath prefix shard t)) as [->|H2].
  { rewrite lookup_insert_eq. by intros [= <-]. }
  rewrite lookup_insert_ne by done.
  destruct (decide (q = infoPath prefix shard t)) as [->|H3].
  { rewrite lookup_insert_eq. by intros [= <-]. }
  rewrite lookup_insert_ne by done. by rewrite lookup_empty.
Qed.

(** Whatever the order of the range, no field is given twice and there is
    a first file to open. *)
Lemma rangeMap_fdMap (prefix : string) (shard : Z) (t : Time) (os : OS) :
  NoDup (map snd (rangeMap os (fdMap prefix shard t))) /\
  rangeMap os (fdMap prefix shard t) <> [].
Proof.
  pose proof (rangeMap_perm _ os (fdMap prefix shard t)) as Hperm.
  split.
  - rewrite Hperm. apply NoDup_fmap_2_strong; [|apply NoDup_map_to_list].
    intros [q1 f1] [q2 f2] H1 H2. cbn [snd]. intros <-.
    apply elem_of_map_to_list in H1, H2.
    apply fdMap_lookup in H1, H2. destruct f1; congruence.
  - intros Hnil. rewrite Hnil in Hperm. symmetry in Hperm.
    apply Permutation_nil_r in Hperm.
    apply map_to_list_empty_iff in Hperm.
    unfold fdMap in Hperm. by apply insert_non_empty in Hperm.
Qed.

Lemma Open_plain (shard : Z) (blockStart : Time) (w : writer) (os : OS)
    (r : Res unit) (w' : writer) (os' : OS) :
  Open shard blockStart (w, os) = (r, (w', os')) ->
  r <> Panic /\
  (plain w' = plain w \/ plain w' = plain (opening shard blockStart w)).
Proof.
  rewrite Open_eq.
  destruct (os_MkdirAll (ShardDirPath (filePathPrefix w) shard)
              (newDirectoryMode w) os) as [r1 os1] eqn:E1.
  apply os_MkdirAll_inv in E1 as (_ & _ & _ & Hp).
  destruct r1 as [[]|e|]; [| |done].
  - intros E. apply openEach_plain in E as [E1 E2].
    split; [done|]. by right.
  - intros [= <- <- <-]. split; [done|]. by left.
Qed.

End OpenFacts.

Section OpenClaims.
Context {env : Env}.

(** C10: [Open] is not atomic on the fields of the writer.  When the
    creation of the directory fails the writer is left as it was; once it
    has succeeded, [start] and [checkpointFilePath] hold the values of the
    new block whatever [Open] returns, and [Open] does return an error with
    these fields overwritten when the first file cannot be opened. *)
Theorem Open_not_atomic (shard : Z) (blockStart : Time) (w : writer) (os : OS) :
  let shardDir := ShardDirPath (filePathPrefix w) shard in
  (forall e os1,
      os_MkdirAll shardDir (newDirectoryMode w) os = (Err e, os1) ->
      Open shard blockStart (w, os) = (Err e, (w, os1))) /\
  (forall os1 r w' os',
      os_MkdirAll shardDir (newDirectoryMode w) os = (Ok tt, os1) ->
      Open shard blockStart (w, os) = (r, (w', os')) ->
      start w' = blockStart /\
      checkpointFilePath w' =
        filepathFromTime shardDir blockStart checkpointFileSuffix) /\
  (forall e rest,
      faults os = None :: Some e :: rest ->
      exists w' os',
        Open shard blockStart (w, os) = (Err e, (w', os')) /\
        start w' = blockStart /\
        checkpointFilePath w' =
          filepathFromTime shardDir blockStart checkpointFileSuffix).
Proof.
  intros shardDir.
  assert (Hsucc : forall os1 r w' os',
      os_MkdirAll shardDir (newDirectoryMode w) os = (Ok tt, os1) ->
      Open shard blockStart (w, os) = (r, (w', os')) ->
      start w' = blockStart /\
      checkpointFilePath w' =
        filepathFromTime shardDir blockStart checkpointFileSuffix).
  { intros os1 r w' os' Hmk. rewrite Open_eq. fold shardDir. rewrite Hmk.
    intros E. apply openEach_plain in E as [E _].
    cbn [fst] in E. injection E as _ _ _ _ Hc Hs _ _ _.
    split; [exact Hs | exact Hc]. }
  split; [|split; [exact Hsucc|]].
  - intros e os1 Hmk. rewrite Open_eq. fold shardDir. by rewrite Hmk.
  - intros e rest Hf.
    destruct (os_MkdirAll_pass shardDir (newDirectoryMode w) os _ Hf)
      as (os1 & Hmk & Hf1).
    destruct (Open shard blockStart (w, os)) as [r [w' os']] eqn:E.
    exists w', os'.
    destruct (Hsucc _ _ _ _ Hmk eq_refl) as [Hs Hc].
    split; [|done].
    rewrite Open_eq in E. fold shardDir in E. rewrite Hmk in E.
    destruct (rangeMap_fdMap (filePathPrefix w) shard blockStart os1)
      as [_ Hfirst].
    destruct (rangeMap os1 (fdMap (filePathPrefix w) shard blockStart))
      as [|[p ptr] fds]; [done|].
    rewrite openEach_cons in E.
    pose proof (os_OpenFile_fault p
                  (newFileMode (opening shard blockStart w)) os1 e rest Hf1)
      as Hop.
    destruct (os_OpenFile p (newFileMode (opening shard blockStart w)) os1)
      as [r1 os2].
    cbn [fst] in Hop. subst r1. cbn [fold_right] in E.
    unfold fail in E. by injection E as <- _ _.
Qed.

End OpenClaims.

Lemma Open_not_atomic_witness :
  exists w' os',
    Open (env := exampleEnv) 3 1000%Z
      (exampleWriter, set_faults [None; Some "EACCES"] emptyOS)
    = (Err "EACCES", (w', os')) /\
    start w' = 1000%Z /\
    checkpointFilePath w' = "/var/db/3/1000-checkpoint.db".
Proof.
  destruct (Open_not_atomic (env := exampleEnv) 3 1000%Z exampleWriter
              (set_faults [None; Some "EACCES"] emptyOS))
    as (_ & _ & H).
  apply (H "EACCES" []). reflexivity.
Defined.

(** *** Writes *)

Lemma int64_add_l (a b : Z) : int64 (int64 a + b) = int64 (a + b).
Proof.
  unfold int64.
  replace ((a + 2 ^ 63) mod 2 ^ 64 - 2 ^ 63 + b + 2 ^ 63)%Z
    with ((a + 2 ^ 63) mod 2 ^ 64 + b)%Z by lia.
  rewrite Zplus_mod_idemp_l.
  by replace (a + 2 ^ 63 + b)%Z with (a + b + 2 ^ 63)%Z by lia.
Qed.

Section WriteFacts.
Context {env : Env}.

Lemma bind_run {A B : Type} (m : M St A) (k : A -> M St B) (st : St) :
  (x <- m ;; k x) st =
  match m st with
  | (Ok a, st') => k a st'
  | (Err e, st') => (Err e, st')
  | (Panic, st') => (Panic, st')
  end.
Proof. reflexivity. Qed.

Lemma writeData_run (d : list byte) (w : writer) (os : OS) :
  writeData d (w, os) =
  (fst (file_Write (dataFd w) d os), (w, snd (file_Write (dataFd w) d os))).
Proof. reflexivity. Qed.

Lemma writeSegments_ok (data : list (list byte)) (w : writer) (os : OS)
    (st' : St) (k : nat) (pd : string) :
  dataFd w = Some k ->
  fdtab os !! k = Some (mkFileObj pd true) ->
  writeSegments data (w, os) = (Ok tt, st') ->
  fst st' = w /\ fdtab (snd st') = fdtab os /\
  (forall c, files os !! pd = Some c ->
             files (snd st') !! pd = Some (c ++ concat data)) /\
  (forall p, p <> pd -> files (snd st') !! p = files os !! p).
Proof.
  intros Hk. revert os.
  induction data as [|d data IH]; intros os Hpd; cbn [writeSegments].
  - unfold ret. intros [= <-]. cbn [fst snd concat].
    repeat split; try done. intros c Hc. by rewrite app_nil_r.
  - rewrite bind_run, writeData_run.
    destruct (file_Write (dataFd w) d os) as [r1 os1] eqn:E1.
    apply file_Write_inv in E1 as (_ & Hfd & _ & _ & Hok). cbn [fst snd].
    destruct r1 as [[]|e|]; [|done..].
    destruct (Hok eq_refl) as (k' & p' & Hk' & Hp' & Hfiles).
    assert (k' = k) as -> by congruence.
    assert (p' = pd) as -> by congruence.
    intros E. apply IH in E as (Hw & Hfd' & Hc' & Hp''); [|by rewrite Hfd].
    split; [done|]. split; [congruence|]. split.
    + intros c Hc. cbn [concat]. rewrite app_assoc. apply Hc'.
      rewrite Hfiles, Hc. apply lookup_insert_eq.
    + intros p Hne. rewrite Hp'' by done. rewrite Hfiles.
      by apply lookup_insert_ne.
Qed.

Lemma commitEntry_ok (entry : IndexEntry) (w : writer) (os : OS)
    (w' : writer) (os' : OS) (j : nat) (px : string) :
  indexFd w = Some j ->
  fdtab os !! j = Some (mkFileObj px true) ->
  commitEntry entry (w, os) = (Ok tt, (w', os')) ->
  exists enc,
    proto_IndexEntry entry = Ok enc /\
    w' = set_currIdx (int64 (currIdx w + 1)) w /\
    fdtab os' = fdtab os /\
    files os' =
      <[px := default [] (files os !! px) ++ indexOutput (idxData w) enc]>
        (files os).
Proof.
  intros Hj Hpx. unfold commitEntry, liftRes, bind, this, liftOS, update.
  cbn [fst snd].
  destruct (proto_IndexEntry entry) as [enc|e|]; [|done..].
  destruct (file_Write (indexFd w) (indexOutput (idxData w) enc) os)
    as [r1 os1] eqn:E1.
  apply file_Write_inv in E1 as (_ & Hfd & _ & _ & Hok). cbn [fst snd].
  destruct r1 as [[]|e|]; [|done..].
  destruct (Hok eq_refl) as (j' & p' & Hj' & Hp' & Hfiles).
  assert (j' = j) as -> by congruence.
  assert (p' = px) as -> by congruence.
  intros [= <- <-]. exists enc. done.
Qed.

Lemma WriteAll_eq (key : string) (data : list (list byte)) (w : writer)
    (os : OS) :
  WriteAll key data (w, os) =
  if (segmentsSize data =? 0)%Z then (Ok tt, (w, os))
  else if (length (idxData w) <? 8)%nat then (Panic, (w, os))
  else
    match writeSegments data
            (set_idxData (order_bytes endianness (uint64 (currIdx w))
                            ++ drop 8 (idxData w)) w, os) with
    | (Ok _, st2) =>
        commitEntry (mkIndexEntry (currIdx w) (segmentsSize data)) st2
    | (Err e, st2) => (Err e, st2)
    | (Panic, st2) => (Panic, st2)
    end.
Proof.
  unfold WriteAll. destruct (segmentsSize data =? 0)%Z; [reflexivity|].
  unfold PutUint64, bind, this, update, panic, ret. cbn [fst snd].
  destruct (length (idxData w) <? 8)%nat; reflexivity.
Qed.

(** A write that records an entry: what it leaves in the two files and in
    the writer. *)
Lemma WriteAll_ok (key : string) (data : list (list byte)) (w : writer)
    (os : OS) (w' : writer) (os' : OS) (px pd : string) :
  px <> pd ->
  attached w os px pd ->
  segmentsSize data <> 0%Z ->
  WriteAll key data (w, os) = (Ok tt, (w', os')) ->
  let entry := mkIndexEntry (currIdx w) (segmentsSize data) in
  (exists enc, proto_IndexEntry entry = Ok enc) /\
  header w' = header w /\
  currIdx w' = int64 (currIdx w + 1) /\
  drop 8 (idxData w') = drop 8 (idxData w) /\
  fdtab os' = fdtab os /\
  (forall cx, files os !! px = Some cx ->
     files os' !! px = Some (cx ++ entryOutput (drop 8 (idxData w)) entry)) /\
  (forall cd, files os !! pd = Some cd ->
     files os' !! pd = Some (cd ++ concat data)) /\
  (forall p, p <> px -> p <> pd -> files os' !! p = files os !! p).
Proof.
  intros Hne (j & k & Hj & Hk & Hpx & Hpd) Hsize. rewrite WriteAll_eq.
  destruct (Z.eqb_spec (segmentsSize data) 0) as [|_]; [done|].
  destruct (length (idxData w) <? 8)%nat; [done|].
  set (w1 := set_idxData _ w).
  destruct (writeSegments data (w1, os)) as [r2 [w2 os2]] eqn:E2.
  destruct r2 as [[]|e|]; [|done..].
  apply (writeSegments_ok data w1 os _ k pd Hk Hpd) in E2
    as (Hw2 & Hfd2 & Hd2 & Ho2).
  cbn [fst snd] in *. subst w2.
  intros E. apply (commitEntry_ok _ w1 os2 _ _ j px Hj) in E
    as (enc & Henc & -> & Hfd3 & Hfiles3); [|by rewrite Hfd2].
  split; [by exists enc|]. split; [done|]. split; [done|].
  split.
  { cbn [idxData set_currIdx w1 set_idxData].
    rewrite drop_app_length'; [done|by rewrite length_order_bytes]. }
  split; [congruence|].
  split; [|split].
  - intros cx Hcx. rewrite Hfiles3, lookup_insert_eq.
    rewrite (Ho2 px Hne), Hcx. cbn [default].
    unfold entryOutput. by rewrite Henc.
  - intros cd Hcd. rewrite Hfiles3, lookup_insert_ne by done.
    by apply Hd2.
  - intros p Hp1 Hp2. rewrite Hfiles3, lookup_insert_ne by done.
    by apply Ho2.
Qed.

End WriteFacts.

(** *** A block, from [Open] to [Close] *)

Section BlockFacts.
Context {env : Env}.

Lemma attached_frame (w w' : writer) (os os' : OS) (px pd : string) :
  header w' = header w -> fdtab os' = fdtab os ->
  attached w os px pd -> attached w' os' px pd.
Proof.
  intros Hh Hfd (j & k & Hj & Hk & Hpx & Hpd).
  injection Hh as _ _ _ _ _ Hi Hd _ _ _.
  exists j, k. rewrite Hi, Hd, Hfd. done.
Qed.

Lemma entriesFrom_cons (first size : Z) (sizes : list Z) :
  entriesFrom first (size :: sizes) =
  mkIndexEntry (int64 first) size :: entriesFrom (first + 1) sizes.
Proof.
  unfold entriesFrom. rewrite imap_cons. f_equal.
  - by rewrite Z.add_0_r.
  - apply imap_ext. intros i x _. cbn. do 2 f_equal. lia.
Qed.

Lemma entriesFrom_lookup (first : Z) (sizes : list Z) (i : nat) (e : IndexEntry) :
  entriesFrom first sizes !! i = Some e ->
  Idx e = int64 (first + Z.of_nat i) /\ sizes !! i = Some (Size e).
Proof.
  unfold entriesFrom. rewrite list_lookup_imap.
  destruct (sizes !! i) as [size|]; [|done].
  intros [= <-]. done.
Qed.

Lemma length_entriesFrom (first : Z) (sizes : list Z) :
  length (entriesFrom first sizes) = length sizes.
Proof. unfold entriesFrom. apply length_imap. Qed.

Lemma entrySizes_cons (key : string) (data : list (list byte))
    (calls : list (string * list (list byte))) :
  entrySizes ((key, data) :: calls) =
  if (segmentsSize data =? 0)%Z then entrySizes calls
  else segmentsSize data :: entrySizes calls.
Proof.
  unfold entrySizes. cbn [map List.filter snd].
  by destruct (segmentsSize data =? 0)%Z.
Qed.

(** The invariant of a block being written: the two files grow by the
    records and the segments of the writes, in write order, and [currIdx]
    counts the records. *)
Lemma WriteAlls_ok (calls : list (string * list (list byte))) :
  forall (w : writer) (os : OS) (w' : writer) (os' : OS) (px pd : string)
         (first : Z),
    px <> pd ->
    attached w os px pd ->
    currIdx w = int64 first ->
    WriteAlls calls (w, os) = (Ok tt, (w', os')) ->
    header w' = header w /\ fdtab os' = fdtab os /\
    drop 8 (idxData w') = drop 8 (idxData w) /\
    currIdx w' = int64 (first + Z.of_nat (length (entrySizes calls))) /\
    Forall (fun e => exists enc, proto_IndexEntry e = Ok enc)
      (entriesFrom first (entrySizes calls)) /\
    (forall cx, files os !! px = Some cx ->
       files os' !! px =
       Some (cx ++ concat (map (entryOutput (drop 8 (idxData w)))
                             (entriesFrom first (entrySizes calls))))) /\
    (forall cd, files os !! pd = Some cd ->
       files os' !! pd = Some (cd ++ dataOutput calls)) /\
    (forall p, p <> px -> p <> pd -> files os' !! p = files os !! p).
Proof.
  induction calls as [|[key data] calls IH];
    intros w os w' os' px pd first Hne Hatt Hidx.
  - cbn [WriteAlls]. unfold ret. intros [= <- <-].
    unfold dataOutput. cbn.
    rewrite Z.add_0_r. repeat split; try done.
    + intros cx ->. by rewrite app_nil_r.
    + intros cd ->. by rewrite app_nil_r.
  - cbn [WriteAlls]. rewrite bind_run.
    destruct (WriteAll key data (w, os)) as [r1 [w1 os1]] eqn:E1.
    destruct r1 as [[]|e|]; [|done..].
    rewrite entrySizes_cons. unfold dataOutput. cbn [map concat snd].
    fold (dataOutput calls).
    destruct (Z.eqb_spec (segmentsSize data) 0) as [Hz|Hnz].
    + rewrite WriteAll_eq in E1.
      rewrite (proj2 (Z.eqb_eq _ _) Hz) in E1. injection E1 as <- <-.
      intros E. cbn [app]. by apply (IH _ _ _ _ px pd first) in E.
    + apply (WriteAll_ok _ _ _ _ _ _ px pd Hne Hatt Hnz) in E1
        as ((enc & Henc) & Hh & Hc & Hs & Hfd & Hx & Hd & Ho).
      intros E.
      apply (IH _ _ _ _ px pd (first + 1)%Z Hne) in E
        as (Hh' & Hfd' & Hs' & Hc' & Hall & Hx' & Hd' & Ho').
      2: { by apply (attached_frame w _ os). }
      2: { rewrite Hc, Hidx. apply int64_add_l. }
      rewrite entriesFrom_cons. cbn [length map concat].
      split; [congruence|]. split; [congruence|]. split; [congruence|].
      split; [rewrite Hc'; f_equal; lia|].
      split; [|split; [|split]].
      * constructor; [|done]. exists enc. by rewrite <- Hidx.
      * intros cx Hcx. rewrite (Hx' _ (Hx _ Hcx)).
        rewrite Hs, Hidx, <- app_assoc. done.
      * intros cd Hcd. rewrite (Hd' _ (Hd _ Hcd)).
        by rewrite <- app_assoc.
      * intros p Hp1 Hp2. rewrite Ho' by done. by apply Ho.
Qed.

End BlockFacts.

Section BlockClaims.
Context {env : Env}.

Lemma distinctPaths_ne (prefix : string) (shard : Z) (t : Time) :
  distinctPaths prefix shard t ->
  let pi := infoPath prefix shard t in
  let px := indexPath prefix shard t in
  let pd := dataPath prefix shard t in
  let pc := checkpointPath prefix shard t in
  pi <> px /\ pi <> pd /\ pi <> pc /\ px <> pd /\ px <> pc /\ pd <> pc.
Proof.
  unfold distinctPaths. intros Hdis.
  apply NoDup_cons in Hdis as [Hn1 Hdis].
  apply NoDup_cons in Hdis as [Hn2 Hdis].
  apply NoDup_cons in Hdis as [Hn3 _].
  repeat rewrite elem_of_cons in Hn1.
  repeat rewrite elem_of_cons in Hn2.
  repeat rewrite elem_of_cons in Hn3.
  cbv zeta. repeat split; intros Heq; tauto.
Qed.

(** With different paths the map of [Open] has its three entries. *)
Lemma fdMap_distinct (prefix : string) (shard : Z) (t : Time) :
  distinctPaths prefix shard t ->
  map_to_list (fdMap prefix shard t) ≡ₚ
  [ (dataPath prefix shard t, DataFd);
    (indexPath prefix shard t, IndexFd);
    (infoPath prefix shard t, InfoFd) ].
Proof.
  intros Hdis.
  destruct (distinctPaths_ne _ _ _ Hdis) as (Hix & Hid & _ & Hxd & _).
  unfold fdMap.
  rewrite map_to_list_insert.
  2: { rewrite !lookup_insert_ne by congruence. apply lookup_empty. }
  rewrite map_to_list_insert.
  2: { rewrite lookup_insert_ne by congruence. apply lookup_empty. }
  rewrite map_to_list_insert by apply lookup_empty.
  by rewrite map_to_list_empty.
Qed.

(** A successful [Open]: after the directory, the files of the map are
    created empty, in the order [fds] of the range, and their handles are
    stored in the fields of the writer. *)
Lemma Open_ok (shard : Z) (blockStart : Time) (w : writer) (os : OS)
    (w' : writer) (os' : OS) :
  Open shard blockStart (w, os) = (Ok tt, (w', os')) ->
  exists fds,
    fds ≡ₚ map_to_list (fdMap (filePathPrefix w) shard blockStart) /\
    plain w' = plain (opening shard blockStart w) /\
    fdtab os' = fdtab os ++ map (fun f => mkFileObj (fst f) true) fds /\
    (forall q, files os' !! q =
               if decide (q ∈ map fst fds) then Some [] else files os !! q) /\
    trace os' =
      trace os ++
      (CallMkdirAll (ShardDirPath (filePathPrefix w) shard)
         (newDirectoryMode w), None)
      :: map (fun f => (CallOpenFile (fst f) (newFileMode w), None)) fds /\
    (forall k p fld,
        fds !! k = Some (p, fld) ->
        getFd fld w' = Some (length (fdtab os) + k)%nat).
Proof.
  rewrite Open_eq.
  destruct (os_MkdirAll (ShardDirPath (filePathPrefix w) shard)
              (newDirectoryMode w) os) as [r0 os0] eqn:E0.
  apply os_MkdirAll_inv in E0 as (Ht0 & Hf0 & Hfd0 & _).
  destruct r0 as [[]|e|]; [|done..].
  destruct (rangeMap_fdMap (filePathPrefix w) shard blockStart os0)
    as [Hnd _].
  pose proof (rangeMap_perm _ os0 (fdMap (filePathPrefix w) shard blockStart))
    as Hperm.
  intros E. apply openEach_ok in E as (Hp & Hfd & Hf & Ht & Hget).
  destruct (Hget Hnd) as [Hin _].
  exists (rangeMap os0 (fdMap (filePathPrefix w) shard blockStart)).
  split; [done|]. split; [done|].
  split; [by rewrite Hfd, Hfd0|].
  split; [|split].
  - intros q. by rewrite Hf, fold_empty_lookup, Hf0.
  - rewrite Ht, Ht0, <- app_assoc. done.
  - intros k p fld Hk. rewrite (Hin k p fld Hk). by rewrite Hfd0.
Qed.

(** What a successful [Open] establishes for the writes and for [Close]. *)
Lemma Open_attached (shard : Z) (blockStart : Time) (w : writer) (os : OS)
    (w' : writer) (os' : OS) :
  distinctPaths (filePathPrefix w) shard blockStart ->
  Open shard blockStart (w, os) = (Ok tt, (w', os')) ->
  let pi := infoPath (filePathPrefix w) shard blockStart in
  let px := indexPath (filePathPrefix w) shard blockStart in
  let pd := dataPath (filePathPrefix w) shard blockStart in
  attached w' os' px pd /\
  (exists i, infoFd w' = Some i /\ fdtab os' !! i = Some (mkFileObj pi true)) /\
  files os' !! pi = Some [] /\ files os' !! px = Some [] /\
  files os' !! pd = Some [] /\
  plain w' = plain (opening shard blockStart w).
Proof.
  intros Hdis E.
  apply Open_ok in E as (fds & Hperm & Hplain & Hfd & Hf & _ & Hget).
  rewrite (fdMap_distinct _ _ _ Hdis) in Hperm. cbv zeta.
  assert (Hat : forall p fld,
             (p, fld) ∈ fds ->
             (exists i, getFd fld w' = Some i /\
                        fdtab os' !! i = Some (mkFileObj p true)) /\
             files os' !! p = Some []).
  { intros p fld Hin. split.
    - apply list_elem_of_lookup in Hin as [k Hk].
      exists (length (fdtab os) + k)%nat. split; [by apply (Hget k p)|].
      rewrite Hfd, lookup_app_r by lia.
      replace (length (fdtab os) + k - length (fdtab os))%nat with k by lia.
      by rewrite list_lookup_fmap, Hk.
    - rewrite Hf, decide_True; [done|].
      apply list_elem_of_fmap. by exists (p, fld). }
  assert (Hd : (dataPath (filePathPrefix w) shard blockStart, DataFd) ∈ fds).
  { rewrite Hperm. apply elem_of_cons. by left. }
  assert (Hx : (indexPath (filePathPrefix w) shard blockStart, IndexFd) ∈ fds).
  { rewrite Hperm. apply elem_of_cons. right. apply elem_of_cons. by left. }
  assert (Hi : (infoPath (filePathPrefix w) shard blockStart, InfoFd) ∈ fds).
  { rewrite Hperm. do 2 (apply elem_of_cons; right).
    apply elem_of_cons. by left. }
  destruct (Hat _ _ Hd) as [(k & Hk1 & Hk2) Hfd'].
  destruct (Hat _ _ Hx) as [(j & Hj1 & Hj2) Hfx'].
  destruct (Hat _ _ Hi) as [(i & Hi1 & Hi2) Hfi'].
  split; [by exists j, k|]. split; [by exists i|]. done.
Qed.

(** A successful [Close]: the record is appended to the buffer, the buffer
    is written to the info file and the checkpoint is created empty. *)
Lemma Close_ok (w : writer) (os : OS) (w' : writer) (os' : OS)
    (i : nat) (pi : string) :
  infoFd w = Some i ->
  fdtab os !! i = Some (mkFileObj pi true) ->
  Close (w, os) = (Ok tt, (w', os')) ->
  exists enc,
    proto_IndexInfo (closeInfo w) = Ok enc /\
    files os' =
      <[checkpointFilePath w := []]>
        (<[pi := default [] (files os !! pi) ++ infoBuffer w ++ enc]>
           (files os)).
Proof.
  intros Hi Hpi. rewrite Close_eq.
  destruct (proto_IndexInfo (closeInfo w)) as [enc|e|]; [|done..].
  cbv zeta.
  destruct (file_Write (infoFd w) (infoBuffer w ++ enc) os)
    as [r1 os1] eqn:E1.
  apply file_Write_inv in E1 as (_ & _ & _ & _ & H1).
  destruct r1 as [[]|e|]; [|done..].
  destruct (H1 eq_refl) as (i' & p' & Hi' & Hp' & Hf1).
  assert (i' = i) as -> by congruence.
  assert (p' = pi) as -> by congruence.
  destruct (closeFiles _ _) as [r2 [w2 os2]] eqn:E2.
  apply closeFiles_inv in E2 as (Hw2 & Hf2 & _). cbn [fst snd] in *.
  destruct r2 as [[]|e|]; [|done..]. subst w2.
  rewrite writeCheckpointFile_eq.
  destruct (os_OpenFile _ _ os2) as [r3 os3] eqn:E3.
  apply os_OpenFile_inv in E3 as (_ & _ & _ & H3).
  destruct r3 as [fd|e|]; [|done..].
  destruct (H3 fd eq_refl) as (_ & Hf3 & _).
  destruct (file_Close (Some fd) os3) as [r4 os4] eqn:E4.
  apply file_Close_inv in E4 as (_ & Hf4 & _). cbn [snd].
  intros [= <- <-]. exists enc. split; [done|].
  rewrite Hf4, Hf3, Hf2, Hf1. done.
Qed.

End BlockClaims.

(** *** Writes that fail *)

Section WriteFailures.
Context {env : Env}.

Lemma writeSegments_frame (data : list (list byte)) (w : writer) (os : OS)
    (r : Res unit) (st' : St) :
  writeSegments data (w, os) = (r, st') ->
  fst st' = w /\ fdtab (snd st') = fdtab os /\ r <> Panic /\
  forall k pd p,
    dataFd w = Some k -> fdtab os !! k = Some (mkFileObj pd true) ->
    p <> pd -> files (snd st') !! p = files os !! p.
Proof.
  revert os. induction data as [|d data IH]; intros os; cbn [writeSegments].
  - unfold ret. intros [= <- <-]. done.
  - rewrite bind_run, writeData_run.
    destruct (file_Write (dataFd w) d os) as [r1 os1] eqn:E1.
    apply file_Write_inv in E1 as (_ & Hfd & Hp & Herr & Hok). cbn [fst snd].
    destruct r1 as [[]|e|]; [| |done].
    + destruct (Hok eq_refl) as (k' & p' & Hk' & Hp' & Hfiles).
      intros E. apply IH in E as (Hw & Hfd' & Hr & Ho).
      split; [done|]. split; [congruence|]. split; [done|].
      intros k pd p Hk Hpd Hne.
      assert (k' = k) as -> by congruence.
      assert (p' = pd) as -> by congruence.
      rewrite (Ho k pd p Hk) by (done || by rewrite Hfd).
      rewrite Hfiles. by apply lookup_insert_ne.
    + intros [= <- <-]. cbn [fst snd]. repeat split; try done.
      intros. by rewrite (Herr e).
Qed.

Lemma commitEntry_any (entry : IndexEntry) (w : writer) (os : OS)
    (r : Res unit) (w' : writer) (os' : OS) :
  commitEntry entry (w, os) = (r, (w', os')) ->
  header w' = header w /\ idxData w' = idxData w /\ fdtab os' = fdtab os /\
  (r <> Ok tt -> currIdx w' = currIdx w /\ files os' = files os).
Proof.
  unfold commitEntry, liftRes, bind, this, liftOS, update. cbn [fst snd].
  destruct (proto_IndexEntry entry) as [enc|e|];
    [|by intros [= <- <- <-]..].
  destruct (file_Write (indexFd w) (indexOutput (idxData w) enc) os)
    as [r1 os1] eqn:E1.
  apply file_Write_inv in E1 as (_ & Hfd & Hp & Herr & _). cbn [fst snd].
  destruct r1 as [[]|e|]; [| |done];
    intros [= <- <- <-]; repeat split; try done.
  by apply (Herr e).
Qed.

(** Whatever a write returns, it leaves the handles and the other fields
    of the header alone; unless it records an entry it leaves [currIdx] and
    every file but the data file alone. *)
Lemma WriteAll_any (key : string) (data : list (list byte)) (w : writer)
    (os : OS) (r : Res unit) (w' : writer) (os' : OS) :
  WriteAll key data (w, os) = (r, (w', os')) ->
  header w' = header w /\ fdtab os' = fdtab os /\
  drop 8 (idxData w') = drop 8 (idxData w) /\
  (r <> Ok tt \/ segmentsSize data = 0%Z ->
   currIdx w' = currIdx w /\
   forall k pd p,
     dataFd w = Some k -> fdtab os !! k = Some (mkFileObj pd true) ->
     p <> pd -> files os' !! p = files os !! p).
Proof.
  rewrite WriteAll_eq.
  destruct (Z.eqb_spec (segmentsSize data) 0) as [Hz|Hnz].
  { by intros [= <- <- <-]. }
  destruct (length (idxData w) <? 8)%nat.
  { by intros [= <- <- <-]. }
  set (w1 := set_idxData _ w).
  assert (Hs : drop 8 (idxData w1) = drop 8 (idxData w)).
  { cbn [idxData w1 set_idxData].
    rewrite drop_app_length'; [done|by rewrite length_order_bytes]. }
  destruct (writeSegments data (w1, os)) as [r2 [w2 os2]] eqn:E2.
  apply writeSegments_frame in E2 as (Hw2 & Hfd2 & Hp2 & Ho2).
  cbn [fst snd] in *. subst w2.
  destruct r2 as [[]|e|]; [| |done].
  - intros E. apply commitEntry_any in E as (Hh & Hi & Hfd3 & Herr).
    split; [done|]. split; [congruence|]. split; [congruence|].
    intros [Hr|Hr]; [|done].
    destruct (Herr Hr) as [Hc Hf]. split; [done|].
    intros k pd p Hk Hpd Hne. rewrite Hf. by apply (Ho2 k pd p).
  - intros [= <- <- <-]. repeat split; done.
Qed.

End WriteFailures.

(** *** The index file of an open writer *)

Section Sizes.
Context {env : Env}.

Lemma fold_int64 (data : list (list byte)) (acc : Z) :
  fold_left (fun size d => int64 (size + Z.of_nat (length d))) data (int64 acc)
  = int64 (acc + totalLength data).
Proof.
  unfold totalLength. revert acc.
  induction data as [|d data IH]; intros acc; cbn [fold_left].
  - cbn. by rewrite Z.add_0_r.
  - rewrite int64_add_l, IH. f_equal.
    change (sum_list (map length (d :: data)))
      with (length d + sum_list (map length data))%nat.
    lia.
Qed.

Lemma segmentsSize_int64 (data : list (list byte)) :
  segmentsSize data = int64 (totalLength data).
Proof. apply (fold_int64 data 0). Qed.



Lemma segmentsSize_nonzero (data : list (list byte)) :
  (0 < totalLength data < 2 ^ 64)%Z -> segmentsSize data <> 0%Z.
Proof.
  intros H. rewrite segmentsSize_int64. unfold int64. intros Hz.
  destruct (Z_lt_ge_dec (totalLength data) (2 ^ 63)) as [Hlt|Hge].
  - rewrite Z.mod_small in Hz by lia. lia.
  - replace (totalLength data + 2 ^ 63)%Z
      with (totalLength data - 2 ^ 63 + 1 * 2 ^ 64)%Z in Hz by lia.
    rewrite Z.mod_add in Hz by lia.
    rewrite Z.mod_small in Hz by lia. lia.
Qed.


Lemma entrySizes_nonzero (calls : list (string * list (list byte))) :
  Forall (fun c => segmentsSize (snd c) <> 0%Z) calls ->
  length (entrySizes calls) = length calls.
Proof.
  induction 1 as [|[key data] calls Hnz _ IH]; [done|].
  rewrite entrySizes_cons. cbn [snd] in Hnz.
  destruct (Z.eqb_spec (segmentsSize data) 0); [done|].
  cbn [length]. by rewrite IH.
Qed.




End Sizes.

Section IndexClaims.
Context {env : Env}.






End IndexClaims.


Section OpenResets.
Context {env : Env}.

Lemma WriteAll_records (key : string) (data : list (list byte)) (w : writer)
    (os : OS) (w' : writer) (os' : OS) :
  segmentsSize data <> 0%Z ->
  WriteAll key data (w, os) = (Ok tt, (w', os')) ->
  (exists enc,
      proto_IndexEntry (mkIndexEntry (currIdx w) (segmentsSize data)) = Ok enc) /\
  currIdx w' = int64 (currIdx w + 1).
Proof.
  intros Hnz. rewrite WriteAll_eq.
  destruct (Z.eqb_spec (segmentsSize data) 0) as [|_]; [done|].
  destruct (length (idxData w) <? 8)%nat; [done|].
  set (w1 := set_idxData _ w).
  destruct (writeSegments data (w1, os)) as [r2 [w2 os2]] eqn:E2.
  apply writeSegments_frame in E2 as (Hw2 & _). cbn [fst] in Hw2. subst w2.
  destruct r2 as [[]|e|]; [|done..].
  unfold commitEntry, liftRes, bind, this, liftOS, update. cbn [fst snd].
  destruct (proto_IndexEntry _) as [enc|e|]; [|done..].
  destruct (file_Write _ _ os2) as [[[]|e|] os3]; [|done..].
  intros [= <- <-]. split; [by exists enc|done].
Qed.

Lemma WriteAlls_any_header (calls : list (string * list (list byte)))
    (st : St) :
  header (fst (WriteAlls_any calls st)) = header (fst st).
Proof.
  revert st. induction calls as [|[key data] calls IH]; intros [w os];
    cbn [WriteAlls_any]; [done|].
  destruct (WriteAll key data (w, os)) as [r [w1 os1]] eqn:E.
  apply WriteAll_any in E as (Hh & _). cbn [snd].
  by rewrite IH.
Qed.

(** C5: a successful [Open] leaves [currIdx] at 0 and [start] at the
    block start it was given: the first entry written afterwards gets
    index 0, and the record [Close] builds, right away or after any writes,
    has this start time. *)
Theorem Open_resets (shard : Z) (blockStart : Time) (w : writer) (os : OS)
    (w' : writer) (os' : OS) :
  Open shard blockStart (w, os) = (Ok tt, (w', os')) ->
  currIdx w' = 0%Z /\ start w' = blockStart /\
  closeInfo w' = mkIndexInfo (ToNanoseconds blockStart) (blockSize w) 0 /\
  (forall key data w1 os1,
      segmentsSize data <> 0%Z ->
      WriteAll key data (w', os') = (Ok tt, (w1, os1)) ->
      (exists enc,
          proto_IndexEntry (mkIndexEntry 0 (segmentsSize data)) = Ok enc) /\
      currIdx w1 = 1%Z) /\
  (forall calls,
      Start (closeInfo (fst (WriteAlls_any calls (w', os')))) =
      ToNanoseconds blockStart).
Proof.
  intros E. apply Open_ok in E as (fds & _ & Hplain & _).
  injection Hplain as Hbs _ _ _ _ Hs Hc _ _.
  cbn [currIdx start blockSize opening set_checkpointFilePath set_currIdx
         set_start] in Hbs, Hs, Hc.
  split; [done|]. split; [done|].
  split; [unfold closeInfo; by rewrite Hs, Hbs, Hc|]. split.
  - intros key data w1 os1 Hnz E.
    apply (WriteAll_records _ _ _ _ _ _ Hnz) in E as [Henc Hc1].
    rewrite Hc in Henc, Hc1. done.
  - intros calls. unfold closeInfo. cbn [Start].
    pose proof (WriteAlls_any_header calls (w', os')) as Hh. cbn [fst] in Hh.
    injection Hh as _ _ _ _ _ _ _ _ Hst _. by rewrite Hst, Hs.
Qed.

End OpenResets.

Lemma Open_resets_witness :
  let st := snd (Open (env := exampleEnv) 7 2000%Z exampleOpened) in
  currIdx (fst st) = 0%Z /\ start (fst st) = 2000%Z.
Proof.
  intros st.
  assert (Hopen : Open (env := exampleEnv) 7 2000%Z
                    (fst exampleOpened, snd exampleOpened)
                  = (Ok tt, (fst st, snd st))).
  { assert (H : fst (Open (env := exampleEnv) 7 2000%Z exampleOpened) = Ok tt)
      by (vm_compute; reflexivity).
    subst st. destruct exampleOpened as [w0 os0]. cbn [fst snd] in *.
    destruct (Open (env := exampleEnv) 7 2000%Z (w0, os0)) as [r [w1 os1]].
    cbn [fst snd] in *. by subst r. }
  destruct (Open_resets (env := exampleEnv) 7 2000%Z _ _ _ _ Hopen)
    as (Hc & Hs & _).
  split; [exact Hc | exact Hs].
Defined.

(** *** Sizes *)


(** *** A block written and closed *)

Section ClosedBlock.
Context {env : Env}.

(** From [Open] through successful writes to a successful [Close]: the
    three files and the checkpoint at the end. *)
Lemma block_files (shard : Z) (blockStart : Time)
    (w0 : writer) (os0 : OS) (w1 : writer) (os1 : OS)
    (calls : list (string * list (list byte)))
    (w2 : writer) (os2 : OS) (w3 : writer) (os3 : OS) :
  distinctPaths (filePathPrefix w0) shard blockStart ->
  Open shard blockStart (w0, os0) = (Ok tt, (w1, os1)) ->
  WriteAlls calls (w1, os1) = (Ok tt, (w2, os2)) ->
  Close (w2, os2) = (Ok tt, (w3, os3)) ->
  let entries := entriesFrom 0 (entrySizes calls) in
  currIdx w2 = int64 (Z.of_nat (length (entrySizes calls))) /\
  files os3 !! checkpointPath (filePathPrefix w0) shard blockStart = Some [] /\
  files os3 !! indexPath (filePathPrefix w0) shard blockStart =
    Some (concat (map (entryOutput (drop 8 (idxData w0))) entries)) /\
  files os3 !! dataPath (filePathPrefix w0) shard blockStart =
    Some (dataOutput calls) /\
  exists enc,
    proto_IndexInfo
      (mkIndexInfo (ToNanoseconds blockStart) (blockSize w0) (currIdx w2))
    = Ok enc /\
    files os3 !! infoPath (filePathPrefix w0) shard blockStart =
    Some (infoBuffer w0 ++ enc).
Proof.
  intros Hdis Hopen Hrun Hclose.
  pose proof (distinctPaths_ne _ _ _ Hdis) as Hne. cbv zeta in Hne.
  destruct Hne as (Hix & Hid & Hic & Hxd & Hxc & Hdc).
  pose proof (Open_attached _ _ _ _ _ _ Hdis Hopen) as Hopened.
  cbv zeta in Hopened.
  destruct Hopened as (Hatt & (i & Hi & Hfi) & Hpi & Hpx & Hpd & Hplain).
  injection Hplain as Hbs _ _ _ Hck Hst Hc1 Hbuf Hidx.
  cbn [opening blockSize checkpointFilePath start currIdx infoBuffer idxData
         set_checkpointFilePath set_currIdx set_start] in *.
  apply (WriteAlls_ok calls w1 os1 w2 os2 _ _ 0%Z Hxd Hatt) in Hrun
    as (Hh & Hfd & Hs & Hc2 & _ & Hx & Hd & Ho); [|by rewrite Hc1].
  injection Hh as Hbs2 _ _ _ Hi2 _ _ Hck2 Hst2 Hbuf2.
  assert (Hi2' : infoFd w2 = Some i) by congruence.
  assert (Hfi2 : fdtab os2 !! i =
                 Some (mkFileObj (infoPath (filePathPrefix w0) shard blockStart)
                         true)) by (by rewrite Hfd).
  destruct (Close_ok w2 os2 w3 os3 i _ Hi2' Hfi2 Hclose) as (enc & Henc & Hf3).
  unfold closeInfo in Henc. rewrite Hst2, Hst, Hbs2, Hbs in Henc.
  rewrite Hck2, Hck, Hbuf2, Hbuf in Hf3.
  rewrite (Ho _ Hix Hid), Hpi in Hf3. cbn [default app] in Hf3.
  rewrite Z.add_0_l in Hc2.
  split; [done|]. rewrite Hf3.
  split; [apply lookup_insert_eq|].
  split; [|split].
  - rewrite !lookup_insert_ne by congruence.
    rewrite (Hx _ Hpx), Hidx. done.
  - rewrite !lookup_insert_ne by congruence.
    rewrite (Hd _ Hpd). done.
  - exists enc. split; [done|].
    rewrite lookup_insert_ne by congruence. apply lookup_insert_eq.
Qed.

(** C2: after [Open], [n] successful writes of non-zero total length and
    a successful [Close], the checkpoint file exists, and the info file
    holds the record whose entries field is [n], whose start is the block
    start given to [Open], in nanoseconds, and whose block size is the one
    the writer was built with.  The record follows whatever the info buffer
    of the writer held before; [n] and the lengths are within the range of
    the 64-bit counters. *)
Theorem Close_records_block (shard : Z) (blockStart : Time)
    (w0 : writer) (os0 : OS) (w1 : writer) (os1 : OS)
    (calls : list (string * list (list byte)))
    (w2 : writer) (os2 : OS) (w3 : writer) (os3 : OS) :
  distinctPaths (filePathPrefix w0) shard blockStart ->
  Forall (fun c => (0 < totalLength (snd c) < 2 ^ 64)%Z) calls ->
  (Z.of_nat (length calls) < 2 ^ 63)%Z ->
  Open shard blockStart (w0, os0) = (Ok tt, (w1, os1)) ->
  WriteAlls calls (w1, os1) = (Ok tt, (w2, os2)) ->
  Close (w2, os2) = (Ok tt, (w3, os3)) ->
  currIdx w2 = Z.of_nat (length calls) /\
  files os3 !! checkpointPath (filePathPrefix w0) shard blockStart = Some [] /\
  exists enc,
    proto_IndexInfo
      (mkIndexInfo (ToNanoseconds blockStart) (blockSize w0)
         (Z.of_nat (length calls)))
    = Ok enc /\
    files os3 !! infoPath (filePathPrefix w0) shard blockStart =
    Some (infoBuffer w0 ++ enc).
Proof.
  intros Hdis Hnz Hn Hopen Hrun Hclose.
  destruct (block_files _ _ _ _ _ _ _ _ _ _ _ Hdis Hopen Hrun Hclose)
    as (Hc & Hck & _ & _ & enc & Henc & Hinfo).
  assert (Hlen : currIdx w2 = Z.of_nat (length calls)).
  { rewrite Hc, entrySizes_nonzero.
    - apply int64_small. lia.
    - eapply Forall_impl; [exact Hnz|]. intros c. apply segmentsSize_nonzero. }
  rewrite Hlen in Henc. eauto.
Qed.


End ClosedBlock.

(** *** The example block *)

Lemma example_distinctPaths :
  distinctPaths (env := exampleEnv) (filePathPrefix exampleWriter) 3 1000%Z.
Proof. unfold distinctPaths. apply (bool_decide_unpack _). by vm_compute. Qed.

Lemma Close_records_block_witness :
  currIdx (fst (snd (exampleBlock exampleWrites))) = 2%Z /\
  files (snd (snd (Close (snd (exampleBlock exampleWrites)))))
    !! "/var/db/3/1000-checkpoint.db" = Some [].
Proof.
  assert (H1 : fst exampleOpen = Ok tt) by (vm_compute; reflexivity).
  assert (H2 : fst (exampleBlock exampleWrites) = Ok tt)
    by (vm_compute; reflexivity).
  assert (H3 : fst (Close (snd (exampleBlock exampleWrites))) = Ok tt)
    by (vm_compute; reflexivity).
  unfold exampleBlock in *.
  destruct exampleOpen as [r1 [w1 os1]] eqn:E1.
  cbn [fst snd] in *. subst r1.
  destruct (WriteAlls exampleWrites (w1, os1)) as [r2 [w2 os2]] eqn:E2.
  cbn [fst snd] in *. subst r2.
  destruct (Close (w2, os2)) as [r3 [w3 os3]] eqn:E3.
  cbn [fst snd] in *. subst r3.
  destruct (Close_records_block (env := exampleEnv) 3 1000%Z
              exampleWriter emptyOS w1 os1 exampleWrites w2 os2 w3 os3
              example_distinctPaths
              ltac:(repeat constructor) ltac:(vm_compute; reflexivity)
              E1 E2 E3)
    as (Hc & Hck & _).
  split; [exact Hc | exact Hck].
Defined.


(** The scenario of a block with an empty write in the middle: two entries,
    twenty bytes of data, a record of two entries and the checkpoint. *)
Example scenario_block :
  let st := scenario (exampleWriter, emptyOS) in
  fst st = Ok tt /\
  currIdx (fst (snd st)) = 2%Z /\
  option_map (length (A := byte))
    (files (snd (snd st)) !! "/var/db/3/1000-data.db") = Some 20%nat /\
  Ok (default [] (files (snd (snd st)) !! "/var/db/3/1000-info.db")) =
    proto_IndexInfo (Env := exampleEnv) (mkIndexInfo 1000 7200 2) /\
  files (snd (snd st)) !! "/var/db/3/1000-checkpoint.db" = Some [].
Proof. vm_compute. repeat split; reflexivity. Qed.

(** When the close of the index file fails, [Close] returns that error and
    there is no checkpoint. *)
Example failing_close_no_checkpoint :
  fst (Close exampleFailing) = Err "EIO" /\
  files (snd (snd (Close exampleFailing))) !! "/var/db/3/1000-checkpoint.db"
  = None.
Proof. vm_compute. split; reflexivity. Qed.

(** ** More about the writer *)

(** *** The calls, step by step *)

Transparent file_Close file_Write os_OpenFile os_MkdirAll.


Lemma file_Write_refused (f : option nat) (d : list byte) (os : OS) (e : error) :
  match f with
  | None => e = ErrInvalid
  | Some fd =>
      match fdtab os !! fd with
      | Some (mkFileObj _ true) => False
      | Some (mkFileObj _ false) => e = ErrClosed
      | None => e = ErrInvalid
      end
  end ->
  file_Write f d os = (Err e, log (CallWrite f d) (Some e) os).
Proof.
  unfold file_Write, logged, bind, checkValid.
  destruct f as [fd|]; [|by intros ->].
  destruct (fdtab os !! fd) as [[p []]|]; [done|by intros ->..].
Qed.

Lemma file_Close_run (fd : nat) (p : string) (os : OS) :
  fdtab os !! fd = Some (mkFileObj p true) ->
  file_Close (Some fd) os =
  match faults os with
  | Some e :: rest =>
      (Err e, log (CallClose (Some fd)) (Some e) (set_faults rest os))
  | _ =>
      (Ok tt, log (CallClose (Some fd)) None
                (close_fd fd p (set_faults (tail (faults os)) os)))
  end.
Proof.
  intros Hfd. unfold file_Close, logged, bind, checkValid, syscall.
  rewrite Hfd. cbn [fst snd].
  by destruct (faults os) as [|[e|] rest].
Qed.

Lemma os_OpenFile_run (p : string) (m : Z) (os : OS) :
  os_OpenFile p m os =
  match faults os with
  | Some e :: rest =>
      (Err e, log (CallOpenFile p m) (Some e) (set_faults rest os))
  | _ =>
      (Ok (length (fdtab os)),
       log (CallOpenFile p m) None
         (set_files (<[p := []]> (files os))
            (set_fdtab (fdtab os ++ [mkFileObj p true])
               (set_faults (tail (faults os)) os))))
  end.
Proof.
  unfold os_OpenFile, logged, bind, get, ret, syscall.
  by destruct (faults os) as [|[e|] rest].
Qed.

Lemma os_MkdirAll_run (d : string) (m : Z) (os : OS) :
  os_MkdirAll d m os =
  match faults os with
  | Some e :: rest =>
      (Err e, log (CallMkdirAll d m) (Some e) (set_faults rest os))
  | _ =>
      (Ok tt,
       log (CallMkdirAll d m) None
         (match dirs os !! d with
          | Some _ => set_faults (tail (faults os)) os
          | None => set_dirs (<[d := m]> (dirs os))
                      (set_faults (tail (faults os)) os)
          end))
  end.
Proof.
  unfold os_MkdirAll, logged, syscall.
  by destruct (faults os) as [|[e|] rest].
Qed.

Opaque file_Close file_Write os_OpenFile os_MkdirAll.

Section WriterExtras.
Context {env : Env}.

(** [writeCheckpointFile] drops the error of the close it makes: once the
    checkpoint is created the call returns nil whether that close succeeds
    or fails, and the file at the checkpoint path is empty whatever it held;
    when the creation fails that error is returned and no file changes. *)
Theorem writeCheckpointFile_drops_close_error (w : writer) (os : OS) :
  let p := checkpointFilePath w in
  (forall e rest,
      faults os = Some e :: rest ->
      exists os',
        writeCheckpointFile (w, os) = (Err e, (w, os')) /\
        files os' = files os /\ fdtab os' = fdtab os) /\
  (forall o rest,
      faults os = None :: o :: rest ->
      exists os',
        writeCheckpointFile (w, os) = (Ok tt, (w, os')) /\
        files os' = <[p := []]> (files os) /\
        trace os' = trace os ++
          [(CallOpenFile p (newFileMode w), None);
           (CallClose (Some (length (fdtab os))), o)]).
Proof.
  intros p. split.
  - intros e rest Hf. rewrite writeCheckpointFile_eq, os_OpenFile_run, Hf.
    eexists. split; [reflexivity|]. done.
  - intros o rest Hf. rewrite writeCheckpointFile_eq, os_OpenFile_run, Hf.
    cbn [tail].
    rewrite (file_Close_run (length (fdtab os)) p).
    2: { cbn [fdtab log set_files set_fdtab set_faults].
         rewrite lookup_app_r by lia. by rewrite Nat.sub_diag. }
    cbn [faults log set_files set_fdtab set_faults].
    eexists. split; [reflexivity|].
    destruct o as [e|]; cbn [snd files trace log set_faults close_fd
                               set_fdtab set_files];
      by rewrite <- app_assoc.
Qed.



(** A writer that was never opened cannot be closed into a checkpoint:
    [Close] on the writer [NewWriter] returns fails, with "invalid argument"
    when the record serialises, makes no call that opens a file and leaves
    the files as they were. *)
Theorem Close_unopened_fails (bs : Z) (prefix : string) (options : option nat)
    (h h' : Heap) (w : writer) (os : OS) :
  NewWriter bs prefix options h = (Ok w, h') ->
  exists st' new,
    Close (w, os) =
      (match proto_IndexInfo (mkIndexInfo (ToNanoseconds zeroTime) bs 0) with
       | Ok _ => Err ErrInvalid
       | Err e => Err e
       | Panic => Panic
       end, st') /\
    files (snd st') = files os /\
    fdtab (snd st') = fdtab os /\
    trace (snd st') = trace os ++ new /\
    forall p m o, (CallOpenFile p m, o) ∉ new.
Proof.
  intros Hnew.
  assert (Hw : infoFd w = None /\
               closeInfo w = mkIndexInfo (ToNanoseconds zeroTime) bs 0).
  { unfold NewWriter, bind, ret in Hnew.
    destruct options as [o|].
    - destruct (GetNewFileMode o h) as [[fm|e|] h2]; [|done..].
      destruct (GetNewDirectoryMode o h2) as [[dm|e|] h3]; [|done..].
      injection Hnew as <- _. done.
    - destruct (NewWriterOptions h) as [[o|e|] h1]; [|done..].
      destruct (GetNewFileMode o h1) as [[fm|e|] h2]; [|done..].
      destruct (GetNewDirectoryMode o h2) as [[dm|e|] h3]; [|done..].
      injection Hnew as <- _. done. }
  destruct Hw as [Hi Hinfo]. rewrite Close_eq, Hinfo.
  destruct (proto_IndexInfo _) as [enc|e|].
  - cbv zeta. rewrite Hi, (file_Write_refused None _ os ErrInvalid eq_refl).
    eexists _, _. split; [reflexivity|]. cbn [snd files fdtab trace log].
    split; [done|]. split; [done|]. split; [reflexivity|].
    intros p m o Hin. by apply list_elem_of_singleton in Hin.
  - eexists _, []. split; [reflexivity|]. cbn [snd]. rewrite app_nil_r.
    repeat split; try done. intros p m o Hin. by apply elem_of_nil in Hin.
  - eexists _, []. split; [reflexivity|]. cbn [snd]. rewrite app_nil_r.
    repeat split; try done. intros p m o Hin. by apply elem_of_nil in Hin.
Qed.

End WriterExtras.

Transparent file_Close.

Lemma file_Close_ok_fdtab (f : option nat) (os os' : OS) :
  file_Close f os = (Ok tt, os') ->
  exists fd q,
    f = Some fd /\ fdtab os !! fd = Some (mkFileObj q true) /\
    fdtab os' = <[fd := mkFileObj q false]> (fdtab os).
Proof.
  unfold file_Close, logged, bind, checkValid, syscall, close_fd.
  destruct f as [fd|]; [|done].
  destruct (fdtab os !! fd) as [[q []]|] eqn:Hfd; [|done..].
  cbn [fst snd].
  destruct (faults os) as [|[e|] rest]; intros [= <-]; eauto.
Qed.

Lemma file_Close_frame_err (f : option nat) (os os' : OS) (e : error) :
  file_Close f os = (Err e, os') ->
  files os' = files os /\ fdtab os' = fdtab os.
Proof.
  unfold file_Close, logged, bind, checkValid, syscall, close_fd.
  destruct f as [fd|]; [|by intros [= <- <-]].
  destruct (fdtab os !! fd) as [[q []]|] eqn:Hfd;
    [|by intros [= <- <-]..].
  cbn [fst snd].
  destruct (faults os) as [|[e'|] rest]; intros [= <- <-]; done.
Qed.

Opaque file_Close.

Section CloseExtras.
Context {env : Env}.

Lemma closeFiles_closes (fds : list (option nat)) (w : writer) (os : OS)
    (st' : St) :
  closeFiles fds (w, os) = (Ok tt, st') ->
  length (fdtab (snd st')) = length (fdtab os) /\
  (forall i p, fdtab os !! i = Some (mkFileObj p false) ->
               fdtab (snd st') !! i = Some (mkFileObj p false)) /\
  (forall fd, Some fd ∈ fds ->
     exists p, fdtab os !! fd = Some (mkFileObj p true) /\
               fdtab (snd st') !! fd = Some (mkFileObj p false)) /\
  (forall i, Some i ∉ fds -> fdtab (snd st') !! i = fdtab os !! i).
Proof.
  revert os. induction fds as [|f fds IH]; intros os; cbn [closeFiles].
  - unfold ret. intros [= <-]. cbn [snd]. repeat split; try done.
    intros fd Hin. by apply elem_of_nil in Hin.
  - rewrite bind_run, liftOS_run.
    destruct (file_Close f os) as [r1 os1] eqn:E1. cbn [fst snd].
    destruct r1 as [[]|e|]; [|done..].
    apply file_Close_ok_fdtab in E1 as (fd & q & -> & Hq & Hfd1).
    pose proof (lookup_lt_Some _ _ _ Hq) as Hlt.
    intros E. apply IH in E as (Hl & Hclosed & Hin & Hout).
    assert (Hnow : fdtab os1 !! fd = Some (mkFileObj q false)).
    { rewrite Hfd1. by apply list_lookup_insert_eq. }
    split; [by rewrite Hl, Hfd1, length_insert|].
    split; [|split].
    + intros i p Hi. apply Hclosed. rewrite Hfd1.
      destruct (decide (fd = i)) as [->|Hne]; [congruence|].
      by rewrite list_lookup_insert_ne.
    + intros fd' Hin'. apply elem_of_cons in Hin' as [[= ->]|Hin'].
      * exists q. split; [done|]. by apply Hclosed.
      * destruct (Hin fd' Hin') as (p & Hp1 & Hp2).
        exists p. split; [|done].
        destruct (decide (fd = fd')) as [->|Hne]; [congruence|].
        by rewrite Hfd1, list_lookup_insert_ne in Hp1.
    + intros i Hi. rewrite not_elem_of_cons in Hi. destruct Hi as [Hi1 Hi2].
      rewrite (Hout i Hi2), Hfd1.
      apply list_lookup_insert_ne. congruence.
Qed.

(** [Close] is not idempotent: after a [Close] that returned nil, a second
    [Close] fails with "file already closed" on its write to the info file
    and changes no file; the checkpoint is not created a second time. *)
Theorem Close_twice_fails (w : writer) (os : OS) (w' : writer) (os' : OS) :
  Close (w, os) = (Ok tt, (w', os')) ->
  exists w'' os'' buf,
    Close (w', os') = (Err ErrClosed, (w'', os'')) /\
    files os'' = files os' /\
    trace os'' = trace os' ++ [(CallWrite (infoFd w) buf, Some ErrClosed)].
Proof.
  rewrite Close_eq.
  destruct (proto_IndexInfo (closeInfo w)) as [enc|e|] eqn:Henc; [|done..].
  cbv zeta.
  destruct (file_Write (infoFd w) (infoBuffer w ++ enc) os)
    as [r1 os1] eqn:E1.
  apply file_Write_inv in E1 as (_ & Hfd1 & _ & _ & H1).
  destruct r1 as [[]|e|]; [|done..].
  destruct (H1 eq_refl) as (i & pi & Hi & Hpi & _).
  set (w1 := set_infoBuffer (infoBuffer w ++ enc) w).
  destruct (closeFiles _ (w1, os1)) as [r2 [w2 os2]] eqn:E2.
  destruct r2 as [[]|e|]; [|done..].
  pose proof (closeFiles_inv _ _ _ _ _ E2) as (Hw2 & _).
  apply closeFiles_closes in E2 as (Hl2 & _ & Hin2 & _).
  cbn [fst snd] in *. subst w2.
  destruct (Hin2 i) as (p & Hp1 & Hp2).
  { rewrite <- Hi. apply elem_of_cons. by left. }
  rewrite writeCheckpointFile_eq, os_OpenFile_run.
  assert (Hclosed : forall os3,
            fdtab os3 = fdtab os2 ++
              [mkFileObj (checkpointFilePath w1) true] ->
            fdtab (snd (file_Close (Some (length (fdtab os2))) os3)) !! i
            = Some (mkFileObj p false)).
  { intros os3 H3.
    pose proof (lookup_lt_Some _ _ _ Hp2) as Hlt.
    destruct (file_Close (Some (length (fdtab os2))) os3) as [r4 os4] eqn:E4.
    cbn [snd]. destruct r4 as [[]|e|].
    - apply file_Close_ok_fdtab in E4 as (fd & q & [= <-] & _ & ->).
      rewrite list_lookup_insert_ne by lia.
      rewrite H3, lookup_app_l by lia. done.
    - apply file_Close_frame_err in E4 as [_ Hsame].
      rewrite Hsame, H3, lookup_app_l by lia. done.
    - by apply file_Close_inv in E4 as (_ & _ & _ & Hp & _). }
  destruct (faults os2) as [|[e|] rest] eqn:Hf2; [|done|];
    intros [= <- <-];
    rewrite Close_eq;
    change (closeInfo w1) with (closeInfo w); rewrite Henc; cbv zeta;
    change (infoFd w1) with (infoFd w); rewrite Hi;
    (rewrite (file_Write_refused (Some i) _ _ ErrClosed);
       [|by rewrite Hclosed]);
    eexists _, _, _; (split; [reflexivity|]); done.
Qed.

End CloseExtras.

Section OpenExtras.
Context {env : Env}.

(** A successful [Open] makes four calls: the directory with the directory
    mode, then the info, index and data files with the file mode, in the
    order of the range over the map, which the code does not fix.  It
    empties these three files whatever they held and leaves every other
    file as it was.  In particular the checkpoint of a block written
    earlier at the same paths is still there after [Open] has emptied its
    files. *)
Theorem Open_empties_files_keeps_checkpoint (shard : Z) (blockStart : Time)
    (w : writer) (os : OS) (w' : writer) (os' : OS) :
  distinctPaths (filePathPrefix w) shard blockStart ->
  Open shard blockStart (w, os) = (Ok tt, (w', os')) ->
  let pi := infoPath (filePathPrefix w) shard blockStart in
  let px := indexPath (filePathPrefix w) shard blockStart in
  let pd := dataPath (filePathPrefix w) shard blockStart in
  let pc := checkpointPath (filePathPrefix w) shard blockStart in
  files os' !! pi = Some [] /\ files os' !! px = Some [] /\
  files os' !! pd = Some [] /\
  files os' !! pc = files os !! pc /\
  (forall p, p <> pi -> p <> px -> p <> pd -> files os' !! p = files os !! p) /\
  exists opens,
    opens ≡ₚ [(CallOpenFile pi (newFileMode w), None);
              (CallOpenFile px (newFileMode w), None);
              (CallOpenFile pd (newFileMode w), None)] /\
    trace os' = trace os ++
      (CallMkdirAll (ShardDirPath (filePathPrefix w) shard)
         (newDirectoryMode w), None) :: opens.
Proof.
  intros Hdis Hopen.
  pose proof (distinctPaths_ne _ _ _ Hdis) as Hne. cbv zeta in Hne.
  destruct Hne as (Hix & Hid & Hic & Hxd & Hxc & Hdc).
  pose proof (Open_attached _ _ _ _ _ _ Hdis Hopen) as Hopened.
  cbv zeta in Hopened.
  destruct Hopened as (_ & _ & Hpi & Hpx & Hpd & _).
  apply Open_ok in Hopen as (fds & Hperm & _ & _ & Hf & Ht & _).
  rewrite (fdMap_distinct _ _ _ Hdis) in Hperm. cbv zeta.
  assert (Hother : forall p,
             p <> infoPath (filePathPrefix w) shard blockStart ->
             p <> indexPath (filePathPrefix w) shard blockStart ->
             p <> dataPath (filePathPrefix w) shard blockStart ->
             files os' !! p = files os !! p).
  { intros p H1 H2 H3. rewrite Hf, decide_False; [done|].
    rewrite Hperm. cbn [map fst].
    rewrite !not_elem_of_cons. repeat split; try done.
    apply not_elem_of_nil. }
  split; [done|]. split; [done|]. split; [done|].
  split; [apply Hother; congruence|]. split; [exact Hother|].
  eexists. split; [|exact Ht].
  rewrite Hperm. cbn [map fst].
  match goal with |- [?d; ?x; ?i] ≡ₚ _ =>
    symmetry; apply (Permutation_rev [i; x; d]) end.
Qed.

End OpenExtras.

(** *** Options and construction *)

(** The setters of the options compose: the file mode and the directory
    mode set one after the other, in either order, are both read back from
    the last structure, and of two values set for the file mode the second
    one stays, with the directory mode of the first structure. *)
Theorem options_setters_compose (h : Heap) (o : nat) (v : writerOptions)
    (m1 m2 : Z) :
  h !! o = Some v ->
  (exists o2 h2,
      (o1 <- NewFileMode o m1 ;; NewDirectoryMode o1 m2) h = (Ok o2, h2) /\
      fst (GetNewFileMode o2 h2) = Ok m1 /\
      fst (GetNewDirectoryMode o2 h2) = Ok m2) /\
  (exists o2 h2,
      (o1 <- NewDirectoryMode o m2 ;; NewFileMode o1 m1) h = (Ok o2, h2) /\
      fst (GetNewFileMode o2 h2) = Ok m1 /\
      fst (GetNewDirectoryMode o2 h2) = Ok m2) /\
  (exists o2 h2,
      (o1 <- NewFileMode o m1 ;; NewFileMode o1 m2) h = (Ok o2, h2) /\
      fst (GetNewFileMode o2 h2) = Ok m2 /\
      fst (GetNewDirectoryMode o2 h2) = Ok (opt_newDirectoryMode v) /\
      fst (GetNewFileMode o h2) = Ok (opt_newFileMode v)).
Proof.
  intros Ho.
  assert (Hlt : (o < length h)%nat) by (eapply lookup_lt_Some; eauto).
  assert (E : forall (l : Heap) x, deref (length l) (l ++ [x]) = (Ok x, l ++ [x])).
  { intros l x. unfold deref. rewrite lookup_app_r by lia.
    by rewrite Nat.sub_diag. }
  assert (E0 : deref o h = (Ok v, h)) by (unfold deref; by rewrite Ho).
  assert (E1 : forall x y, deref o ((h ++ [x]) ++ [y]) = (Ok v, (h ++ [x]) ++ [y])).
  { intros x y. unfold deref.
    rewrite lookup_app_l by (rewrite length_app; lia).
    rewrite lookup_app_l by lia. by rewrite Ho. }
  assert (L : forall x : writerOptions, length (h ++ [x]) = S (length h)).
  { intros x. rewrite length_app. cbn. lia. }
  unfold NewFileMode, NewDirectoryMode, GetNewFileMode, GetNewDirectoryMode,
    alloc, bind, ret.
  rewrite E0, !E. repeat split.
  - eexists _, _. split; [reflexivity|]. by rewrite !E.
  - eexists _, _. split; [reflexivity|]. by rewrite !E.
  - eexists _, _. split; [reflexivity|]. by rewrite !E, E1.
Qed.

Lemma options_setters_compose_witness :
  exists o2 h2,
    (o1 <- NewFileMode 0 384 ;; NewDirectoryMode o1 448)
      [mkWriterOptions 438 493] = (Ok o2, h2) /\
    fst (GetNewFileMode o2 h2) = Ok 384%Z /\
    fst (GetNewDirectoryMode o2 h2) = Ok 448%Z.
Proof.
  destruct (options_setters_compose [mkWriterOptions 438 493] 0
              (mkWriterOptions 438 493) 384 448 eq_refl) as [H _].
  exact H.
Defined.

Section NewWriterExtras.
Context {env : Env}.

(** [NewWriter] with options reads the two modes out of the structure it
    is given and allocates nothing; the writer it returns has no open file,
    a counter at zero and a scratch buffer of [idxLen] bytes.  Built from
    [opts.NewFileMode(m)] it has the file mode [m] and the directory mode of
    [opts].  A nil pointer inside the interface makes it panic. *)
Theorem NewWriter_reads_options (bs : Z) (prefix : string) (h : Heap)
    (o : nat) :
  match h !! o with
  | Some v =>
      (exists w,
          NewWriter bs prefix (Some o) h = (Ok w, h) /\
          newFileMode w = opt_newFileMode v /\
          newDirectoryMode w = opt_newDirectoryMode v /\
          infoFd w = None /\ indexFd w = None /\ dataFd w = None /\
          currIdx w = 0%Z /\ length (idxData w) = idxLen) /\
      (forall m, exists w h1,
          (o1 <- NewFileMode o m ;; NewWriter bs prefix (Some o1)) h
          = (Ok w, h1) /\
          newFileMode w = m /\
          newDirectoryMode w = opt_newDirectoryMode v)
  | None => NewWriter bs prefix (Some o) h = (Panic, h)
  end.
Proof.
  destruct (h !! o) as [v|] eqn:Ho.
  - assert (E0 : deref o h = (Ok v, h)) by (unfold deref; by rewrite Ho).
    split.
    + unfold NewWriter, GetNewFileMode, GetNewDirectoryMode, bind, ret.
      repeat (rewrite E0; cbv beta iota).
      eexists. split; [reflexivity|].
      cbn. repeat split; try done. apply length_replicate.
    + intros m.
      unfold NewWriter, NewFileMode, GetNewFileMode, GetNewDirectoryMode,
        alloc, bind, ret.
      rewrite E0.
      assert (E : forall x, deref (length h) (h ++ [x]) = (Ok x, h ++ [x])).
      { intros x. unfold deref. rewrite lookup_app_r by lia.
        by rewrite Nat.sub_diag. }
      cbv beta iota. repeat (rewrite E; cbv beta iota).
      eexists _, _. split; [reflexivity|]. done.
  - unfold NewWriter, GetNewFileMode, GetNewDirectoryMode, bind, ret, deref.
    by rewrite Ho.
Qed.

End NewWriterExtras.

(** *** The extras on the example *)

Lemma writeCheckpointFile_drops_close_error_witness :
  exists os',
    writeCheckpointFile
      (fst exampleOpened, set_faults [None; Some "EIO"] (snd exampleOpened))
    = (Ok tt, (fst exampleOpened, os')).
Proof.
  destruct (writeCheckpointFile_drops_close_error (env := exampleEnv)
              (fst exampleOpened)
              (set_faults [None; Some "EIO"] (snd exampleOpened)))
    as [_ H].
  destruct (H (Some "EIO") [] eq_refl) as (os' & E & _).
  exists os'. exact E.
Defined.


Lemma Close_unopened_fails_witness :
  exists st',
    Close (env := exampleEnv) (exampleWriter, emptyOS) = (Err ErrInvalid, st').
Proof.
  destruct (Close_unopened_fails (env := exampleEnv) 7200 "/var/db" None []
              [mkWriterOptions defaultNewFileMode defaultNewDirectoryMode]
              exampleWriter emptyOS eq_refl)
    as (st' & new & E & _).
  exists st'. exact E.
Defined.

Lemma Close_twice_fails_witness :
  exists w'' os'',
    Close (snd (Close exampleOpened)) = (Err ErrClosed, (w'', os'')).
Proof.
  assert (H : fst (Close exampleOpened) = Ok tt) by (vm_compute; reflexivity).
  destruct exampleOpened as [w os].
  destruct (Close (w, os)) as [r [w' os']] eqn:E.
  cbn [fst snd] in *. subst r.
  destruct (Close_twice_fails (env := exampleEnv) w os w' os' E)
    as (w'' & os'' & buf & E2 & _).
  exists w'', os''. exact E2.
Defined.

Lemma Open_empties_files_keeps_checkpoint_witness :
  let w := fst exampleClosed in
  let st' := snd (Open (env := exampleEnv) 3 1000%Z
                    (w, snd exampleClosed)) in
  files (snd st')
    !! checkpointPath (env := exampleEnv) (filePathPrefix w) 3 1000%Z =
  files (snd exampleClosed)
    !! checkpointPath (env := exampleEnv) (filePathPrefix w) 3 1000%Z /\
  files (snd st') !! dataPath (env := exampleEnv) (filePathPrefix w) 3 1000%Z
  = Some [].
Proof.
  intros w st'.
  assert (Hdis : distinctPaths (env := exampleEnv) (filePathPrefix w) 3 1000%Z).
  { unfold distinctPaths. apply (bool_decide_unpack _). by vm_compute. }
  assert (H : fst (Open (env := exampleEnv) 3 1000%Z (w, snd exampleClosed))
              = Ok tt) by (vm_compute; reflexivity).
  subst st'.
  destruct (Open (env := exampleEnv) 3 1000%Z (w, snd exampleClosed))
    as [r [w' os']] eqn:E.
  cbn [fst snd] in *. subst r.
  pose proof (Open_empties_files_keeps_checkpoint (env := exampleEnv)
                3 1000%Z w (snd exampleClosed) w' os' Hdis E) as Hx.
  cbv zeta in Hx. destruct Hx as (_ & _ & Hd & Hc & _).
  split; [exact Hc | exact Hd].
Defined.

(** On the example: opening the finished block again leaves its checkpoint
    over an emptied data file. *)
Example reopen_keeps_stale_checkpoint :
  let st' := snd (Open (env := exampleEnv) 3 1000%Z exampleClosed) in
  option_map (length (A := byte))
    (files (snd exampleClosed) !! "/var/db/3/1000-data.db") = Some 20%nat /\
  files (snd st') !! "/var/db/3/1000-data.db" = Some [] /\
  files (snd st') !! "/var/db/3/1000-checkpoint.db" = Some [].
Proof. vm_compute. repeat split; reflexivity. Qed.

(** ** The helpers of [package logical] *)

Section LogicalFacts.
Import logical.
Context {models : Models}.

(** *** [DedupeMetadata] *)

Lemma distinctAmong_false (t : Tag) (metas : list SeriesMeta) :
  distinctAmong t metas = false <->
  Forall (fun m => Get (sTags m) (Name t) = Some (Value t)) metas.
Proof.
  induction metas as [|m metas IH]; cbn [distinctAmong].
  - split; [constructor|done].
  - destruct (Get (sTags m) (Name t)) as [val|] eqn:Hget.
    + destruct (String.eqb_spec val (Value t)) as [->|Hne]; cbn [negb].
      * rewrite IH. split; [by constructor|by inversion 1].
      * split; [done|]. inversion 1; congruence.
    + split; [done|]. inversion 1; congruence.
Qed.

Lemma commonKeysLoop_keys (firstTags : Tags) (others : list SeriesMeta)
    (keys : list string) (m : gmap string string) :
  fst (commonKeysLoop firstTags others keys m) =
  keys ++ map Name
            (List.filter (fun t => negb (distinctAmong t others)) firstTags).
Proof.
  revert keys m. induction firstTags as [|t rest IH]; intros keys m;
    cbn [commonKeysLoop List.filter map].
  - by rewrite app_nil_r.
  - destruct (distinctAmong t others); cbn [negb].
    + apply IH.
    + rewrite IH. cbn [map]. by rewrite <- app_assoc.
Qed.

Lemma commonKeysLoop_map (firstTags : Tags) (others : list SeriesMeta)
    (keys : list string) (m : gmap string string) :
  snd (commonKeysLoop firstTags others keys m) =
  fold_left (fun m t => <[Name t := Value t]> m)
    (List.filter (fun t => negb (distinctAmong t others)) firstTags) m.
Proof.
  revert keys m. induction firstTags as [|t rest IH]; intros keys m;
    cbn [commonKeysLoop List.filter]; [done|].
  destruct (distinctAmong t others); cbn [negb fold_left]; apply IH.
Qed.

Lemma filter_sublist {A : Type} (f : A -> bool) (l : list A) :
  sublist (List.filter f l) l.
Proof.
  induction l as [|x l IH]; cbn [List.filter]; [done|].
  destruct (f x); [by apply sublist_skip|by apply sublist_cons].
Qed.

Lemma fold_insert_notin (l : Tags) (m : gmap string string) (n : string) :
  n ∉ map Name l ->
  fold_left (fun m t => <[Name t := Value t]> m) l m !! n = m !! n.
Proof.
  revert m. induction l as [|t l IH]; intros m; cbn [fold_left map]; [done|].
  intros Hn. rewrite not_elem_of_cons in Hn. destruct Hn as [Hn1 Hn2].
  rewrite (IH _ Hn2). by apply lookup_insert_ne.
Qed.

Lemma fold_insert_in (l : Tags) (m : gmap string string) (t : Tag) :
  NoDup (map Name l) -> t ∈ l ->
  fold_left (fun m t => <[Name t := Value t]> m) l m !! Name t
  = Some (Value t).
Proof.
  revert m. induction l as [|t' l IH]; intros m; cbn [fold_left map].
  - intros _ Hin. by apply elem_of_nil in Hin.
  - intros Hnd Hin. apply NoDup_cons in Hnd as [Hnotin Hnd].
    apply elem_of_cons in Hin as [->|Hin].
    + rewrite (fold_insert_notin _ _ _ Hnotin). apply lookup_insert_eq.
    + by apply IH.
Qed.

(** [DedupeMetadata] on a slice that is not empty: a tag of the first
    series is common exactly when every other series has the same value
    under its name.  The names of the common tags, in the order of the
    first series, are removed from every series, the first included; the
    tags returned are made from the map of the common tags, which sends
    each common name to its value when the names of the first series are
    distinct.  With one series every tag is common. *)
Theorem DedupeMetadata_common (first : SeriesMeta)
    (others : list SeriesMeta) :
  let common := fun t =>
    Forall (fun m => Get (sTags m) (Name t) = Some (Value t)) others in
  exists commonKeys commonTags,
    DedupeMetadata (first :: others) =
      (FromMap commonTags,
       map (fun meta => setTags (WithoutKeys (sTags meta) commonKeys) meta)
         (first :: others)) /\
    (forall n, n ∈ commonKeys <->
               exists t, t ∈ sTags first /\ Name t = n /\ common t) /\
    sublist commonKeys (map Name (sTags first)) /\
    (forall n, n ∉ commonKeys -> commonTags !! n = None) /\
    (NoDup (map Name (sTags first)) ->
     forall t, t ∈ sTags first -> common t ->
               commonTags !! Name t = Some (Value t)) /\
    (others = [] -> commonKeys = map Name (sTags first)).
Proof.
  intros common.
  set (keep := fun t => negb (distinctAmong t others)).
  assert (Hkeep : forall t, keep t = true <-> common t).
  { intros t. unfold keep, common. rewrite <- distinctAmong_false.
    by destruct (distinctAmong t others). }
  exists (map Name (List.filter keep (sTags first))),
         (fold_left (fun m t => <[Name t := Value t]> m)
            (List.filter keep (sTags first)) ∅).
  split.
  { unfold DedupeMetadata.
    pose proof (commonKeysLoop_keys (sTags first) others [] ∅) as Hk.
    pose proof (commonKeysLoop_map (sTags first) others [] ∅) as Hm.
    destruct (commonKeysLoop (sTags first) others [] ∅) as [keys m].
    cbn [fst snd app] in *. by subst. }
  split; [|split; [|split; [|split]]].
  - intros n. rewrite list_elem_of_fmap. split.
    + intros (t & -> & Hin). apply list_elem_of_In, filter_In in Hin.
      destruct Hin as [Hin Hk]. exists t.
      split; [by apply list_elem_of_In|]. split; [done|by apply Hkeep].
    + intros (t & Hin & <- & Hc). exists t. split; [done|].
      apply list_elem_of_In, filter_In. split; [by apply list_elem_of_In|].
      by apply Hkeep.
  - apply (fmap_sublist Name), filter_sublist.
  - intros n Hn. rewrite fold_insert_notin; [done|].
    intros Hin. apply Hn. apply list_elem_of_In.
    by apply list_elem_of_In in Hin.
  - intros Hnd t Hin Hc. apply fold_insert_in.
    + eapply sublist_NoDup; [exact Hnd|].
      apply (fmap_sublist Name), filter_sublist.
    + apply list_elem_of_In, filter_In. split; [by apply list_elem_of_In|].
      by apply Hkeep.
  - intros ->. f_equal. unfold keep. cbn [distinctAmong negb].
    clear. induction (sTags first) as [|t l IH]; cbn [List.filter]; [done|].
    by rewrite IH.
Qed.

End LogicalFacts.

Section AppendFacts.
Import logical.
Context {models : Models} {V : Type}.

Lemma omap_cons_Some {A B : Type} (f : A -> option B) (x : A) (y : B)
    (l : list A) :
  f x = Some y -> omap f (x :: l) = y :: omap f l.
Proof. intros H. cbn. by rewrite H. Qed.

Lemma appendAt_ok (index : nat) (values : list V) (idxArray : list Z)
    (builder : list (nat * V)) :
  inRange idxArray values ->
  appendAt index values idxArray builder =
  (Ok tt, builder ++ stepCalls idxArray index values) /\
  length (stepCalls idxArray index values) = length idxArray.
Proof.
  unfold inRange, stepCalls. intros H. revert builder.
  induction H as [|idx idxArray Hidx _ IH]; intros builder;
    cbn [appendAt omap].
  - by rewrite app_nil_r.
  - destruct (Z.ltb_spec idx 0) as [|_]; [lia|].
    destruct (lookup_lt_is_Some_2 values (Z.to_nat idx) ltac:(lia))
      as [v Hv].
    rewrite Hv, (omap_cons_Some _ idx (index, v)) by (by rewrite Hv).
    destruct (IH (builder ++ [(index, v)])) as [-> Hl].
    rewrite <- app_assoc. split; [done|]. cbn [length]. by rewrite Hl.
Qed.

Lemma appendValuesFrom_ok (idxArray : list Z) (oks : list (list V))
    (tail : list StepResult) (index : nat) (builder : list (nat * V)) :
  Forall (inRange idxArray) oks ->
  appendValuesFrom index idxArray (map StepOk oks ++ tail) builder =
  appendValuesFrom (index + length oks) idxArray tail
    (builder ++ concat (imap (fun i => stepCalls idxArray (index + i)) oks)).
Proof.
  intros H. revert index builder.
  induction H as [|values oks Hv _ IH]; intros index builder.
  - cbn. by rewrite Nat.add_0_r, app_nil_r.
  - cbn [map app appendValuesFrom].
    rewrite (proj1 (appendAt_ok index values idxArray builder Hv)).
    rewrite IH, imap_cons. cbn [concat length].
    rewrite Nat.add_0_r, <- app_assoc.
    replace (S index + length oks)%nat with (index + S (length oks))%nat
      by lia.
    do 4 f_equal. apply imap_ext. intros i x _. cbn. f_equal. lia.
Qed.

Lemma length_stepCalls (idxArray : list Z) (oks : list (list V))
    (index : nat) :
  Forall (inRange idxArray) oks ->
  length (concat (imap (fun i => stepCalls idxArray (index + i)) oks)) =
  (length oks * length idxArray)%nat.
Proof.
  intros H. revert index. induction H as [|values oks Hv _ IH];
    intros index; [done|].
  rewrite imap_cons. cbn [concat length Nat.mul]. rewrite length_app.
  rewrite (proj2 (appendAt_ok (index + 0) values idxArray [] Hv)).
  f_equal. rewrite <- (IH (S index)). do 2 f_equal.
  apply imap_ext. intros i x _. cbn. f_equal. lia.
Qed.

(** [appendValuesAtIndices] walks the iterator from step 0.  While every
    step is there and every index is within its values, step [i] appends
    the values at the indices, in their order, under the index [i]: when
    the iterator ends the function returns nil, and when [Current] fails it
    returns that error at once, the builder keeping what the steps before
    appended and the steps after it never being read. *)
Theorem appendValuesAtIndices_steps (idxArray : list Z)
    (oks : list (list V)) (builder : list (nat * V)) :
  Forall (inRange idxArray) oks ->
  let appended :=
    concat (imap (fun i => stepCalls idxArray i) oks) in
  length appended = (length oks * length idxArray)%nat /\
  appendValuesAtIndices idxArray (map StepOk oks) builder =
    (Ok tt, builder ++ appended) /\
  forall err after,
    appendValuesAtIndices idxArray (map StepOk oks ++ StepErr err :: after)
      builder = (Err err, builder ++ appended).
Proof.
  intros H appended. split; [|split].
  - apply (length_stepCalls idxArray oks 0 H).
  - unfold appendValuesAtIndices.
    rewrite <- (app_nil_r (map StepOk oks)), appendValuesFrom_ok by done.
    done.
  - intros err after. unfold appendValuesAtIndices.
    rewrite appendValuesFrom_ok by done. done.
Qed.

(** An index outside the values of a step is a panic: the values at the
    indices before it are appended, nothing after it is. *)
Theorem appendValuesAtIndices_index_out_of_range (before after : list Z)
    (idx : Z) (oks : list (list V)) (values : list V)
    (rest : list StepResult) (builder : list (nat * V)) :
  Forall (inRange (before ++ idx :: after)) oks ->
  inRange before values ->
  (idx < 0 \/ Z.of_nat (length values) <= idx)%Z ->
  appendValuesAtIndices (before ++ idx :: after)
    (map StepOk oks ++ StepOk values :: rest) builder =
  (Panic,
   builder
     ++ concat (imap (fun i => stepCalls (before ++ idx :: after) i) oks)
     ++ stepCalls before (length oks) values).
Proof.
  intros Hoks Hbefore Hidx. unfold appendValuesAtIndices.
  rewrite appendValuesFrom_ok by done. cbn [Nat.add appendValuesFrom].
  set (b := builder ++ _).
  assert (E : appendAt (length oks) values (before ++ idx :: after) b =
              (Panic, b ++ stepCalls before (length oks) values)).
  { clearbody b. clear Hoks. revert b. unfold inRange in Hbefore.
    induction Hbefore as [|i before Hi _ IH]; intros b.
    - cbn [app appendAt stepCalls omap]. rewrite app_nil_r.
      destruct (Z.ltb_spec idx 0) as [|Hge]; [done|].
      rewrite lookup_ge_None_2 by lia. done.
    - cbn [app appendAt]. destruct (Z.ltb_spec i 0) as [|_]; [lia|].
      destruct (lookup_lt_is_Some_2 values (Z.to_nat i) ltac:(lia))
        as [v Hv].
      rewrite Hv, IH. unfold stepCalls.
      rewrite (omap_cons_Some _ i (length oks, v)) by (by rewrite Hv).
      by rewrite <- app_assoc. }
  rewrite E. unfold b. by rewrite <- app_assoc.
Qed.

End AppendFacts.

Section CombineFacts.
Import logical.
Context {models : Models}.

Lemma agrees_delete (om : gmap string Tag) (n : string) (t : Tag) :
  Name t <> n ->
  agrees (delete n om) t = agrees om t /\
  rival (delete n om) t = rival om t.
Proof.
  intros Hne. unfold agrees, rival.
  by rewrite lookup_delete_ne by congruence.
Qed.

Lemma omap_ext_in {A B : Type} (f g : A -> option B) (l : list A) :
  (forall x, x ∈ l -> f x = g x) -> omap f l = omap g l.
Proof.
  induction l as [|x l IH]; intros H; [done|].
  cbn. rewrite (H x) by (apply elem_of_cons; by left).
  rewrite IH; [done|]. intros y Hy. apply H, elem_of_cons. by right.
Qed.

(** The loop never drops a tag of the left side: each one is kept as
    common or handed to the series of the left side. *)
Lemma commonTagsLoop_split (leftTags : Tags) (om : gmap string Tag)
    (tags ma oa : Tags) :
  exists c a r,
    commonTagsLoop leftTags om tags ma oa =
      (fold_left (fun m t => delete (Name t) m) leftTags om,
       tags ++ c, ma ++ a, oa ++ r) /\
    sublist c leftTags /\ sublist a leftTags /\ leftTags ≡ₚ c ++ a.
Proof.
  revert om tags ma oa.
  induction leftTags as [|t rest IH]; intros om tags ma oa;
    cbn [commonTagsLoop fold_left].
  - exists [], [], []. by rewrite !app_nil_r.
  - destruct (om !! Name t) as [o|] eqn:Ho.
    + destruct (negb (Value t =? Value o)%string).
      * destruct (IH (delete (Name t) om) tags (ma ++ [t]) (oa ++ [o]))
          as (c & a & r & -> & Hc & Ha & Hp).
        exists c, (t :: a), (o :: r). rewrite <- !app_assoc.
        split; [done|]. split; [by apply sublist_cons|].
        split; [by apply sublist_skip|].
        rewrite Hp. by apply Permutation_middle.
      * destruct (IH (delete (Name t) om) (tags ++ [t]) ma oa)
          as (c & a & r & -> & Hc & Ha & Hp).
        exists (t :: c), a, r. rewrite <- !app_assoc.
        split; [done|]. split; [by apply sublist_skip|].
        split; [by apply sublist_cons|].
        by rewrite Hp.
    + destruct (IH om tags (ma ++ [t]) oa)
        as (c & a & r & -> & Hc & Ha & Hp).
      exists c, (t :: a), r. rewrite <- !app_assoc.
      rewrite (delete_id om (Name t) Ho).
      split; [done|]. split; [by apply sublist_cons|].
      split; [by apply sublist_skip|].
      rewrite Hp. by apply Permutation_middle.
Qed.

(** With distinct names on the left the loop sorts the tags by what the
    other side holds under their name. *)
Lemma commonTagsLoop_spec (leftTags : Tags) (om : gmap string Tag)
    (tags ma oa : Tags) :
  NoDup (map Name leftTags) ->
  commonTagsLoop leftTags om tags ma oa =
    (fold_left (fun m t => delete (Name t) m) leftTags om,
     tags ++ List.filter (agrees om) leftTags,
     ma ++ List.filter (fun t => negb (agrees om t)) leftTags,
     oa ++ omap (rival om) leftTags).
Proof.
  revert om tags ma oa.
  induction leftTags as [|t rest IH]; intros om tags ma oa Hnd;
    cbn [commonTagsLoop fold_left List.filter map].
  - cbn. by rewrite !app_nil_r.
  - cbn [map] in Hnd. apply NoDup_cons in Hnd as [Hnotin Hnd].
    assert (Hrest : forall t', t' ∈ rest -> Name t' <> Name t).
    { intros t' Hin Heq. apply Hnotin. rewrite <- Heq.
      apply list_elem_of_fmap. eauto. }
    assert (Hf1 : List.filter (agrees (delete (Name t) om)) rest
                  = List.filter (agrees om) rest).
    { apply filter_ext_in. intros t' Hin. apply agrees_delete, Hrest.
      by apply list_elem_of_In. }
    assert (Hf2 : List.filter (fun t' => negb (agrees (delete (Name t) om) t'))
                    rest
                  = List.filter (fun t' => negb (agrees om t')) rest).
    { apply filter_ext_in. intros t' Hin. f_equal.
      apply agrees_delete, Hrest. by apply list_elem_of_In. }
    assert (Hf3 : omap (rival (delete (Name t) om)) rest
                  = omap (rival om) rest).
    { apply omap_ext_in. intros t' Hin. by apply agrees_delete, Hrest. }
    assert (Hr : omap (rival om) (t :: rest) =
                 match rival om t with
                 | Some o => o :: omap (rival om) rest
                 | None => omap (rival om) rest
                 end) by reflexivity.
    rewrite Hr. clear Hr.
    destruct (om !! Name t) as [o|] eqn:Ho.
    + assert (Ha : agrees om t = (Value t =? Value o)%string)
        by (unfold agrees; by rewrite Ho).
      assert (Hv : rival om t =
                   if (Value t =? Value o)%string then None else Some o)
        by (unfold rival; by rewrite Ho).
      rewrite Ha, Hv.
      destruct (Value t =? Value o)%string; cbn [negb];
        rewrite IH by done; rewrite Hf1, Hf2, Hf3, <- !app_assoc; done.
    + assert (Ha : agrees om t = false) by (unfold agrees; by rewrite Ho).
      assert (Hv : rival om t = None) by (unfold rival; by rewrite Ho).
      rewrite Ha, Hv. cbn [negb]. rewrite IH by done.
      rewrite (delete_id om (Name t) Ho), <- !app_assoc. done.
Qed.

Lemma fold_delete_lookup (leftTags : Tags) (om : gmap string Tag)
    (n : string) :
  fold_left (fun m t => delete (Name t) m) leftTags om !! n =
  if decide (n ∈ map Name leftTags) then None else om !! n.
Proof.
  revert om. induction leftTags as [|t rest IH]; intros om;
    cbn [fold_left map].
  - by rewrite decide_False by apply not_elem_of_nil.
  - rewrite IH. destruct (decide (n ∈ map Name rest)) as [Hin|Hnin].
    + rewrite decide_True; [done|]. apply elem_of_cons. by right.
    + destruct (decide (n = Name t)) as [->|Hne].
      * rewrite decide_True by (apply elem_of_cons; by left).
        apply lookup_delete_eq.
      * rewrite decide_False.
        -- by apply lookup_delete_ne.
        -- rewrite not_elem_of_cons. done.
Qed.

Lemma addToEach_lookup (toAdd : Tags) (slice : list nat)
    (mem : list SeriesMeta) (i : nat) :
  NoDup slice ->
  length (addToEach toAdd slice mem) = length mem /\
  addToEach toAdd slice mem !! i =
  (if decide (i ∈ slice) then addTo toAdd else id) <$> mem !! i.
Proof.
  unfold addToEach. revert mem.
  induction slice as [|j slice IH]; intros mem Hnd; cbn [fold_left].
  - rewrite decide_False by apply not_elem_of_nil.
    split; [done|]. by destruct (mem !! i).
  - apply NoDup_cons in Hnd as [Hnotin Hnd].
    destruct (IH (alter (fun s => setTags (Add (sTags s) toAdd) s) j mem) Hnd)
      as [Hl ->].
    split; [by rewrite Hl, length_alter|].
    destruct (decide (i = j)) as [->|Hne].
    + rewrite decide_False by done.
      rewrite decide_True by (apply elem_of_cons; by left).
      rewrite list_lookup_alter_eq. by destruct (mem !! j).
    + rewrite list_lookup_alter_ne by done.
      destruct (decide (i ∈ slice)) as [Hin|Hnin].
      * rewrite decide_True; [done|]. apply elem_of_cons. by right.
      * rewrite decide_False; [done|]. rewrite not_elem_of_cons. done.
Qed.

(** What [combineMetaAndSeriesMeta] returns.  When the bounds differ:
    empty values and [errMismatchedBounds], nothing else touched.
    Otherwise: no error, the two slices as they were given, the bounds of
    the left metadata, and as its tags a part of the left tags, in their
    order; with distinct names on the left these are exactly the tags that
    the other metadata holds with the same value. *)
Theorem combineMetaAndSeriesMeta_result (meta otherMeta : Metadata)
    (seriesMeta otherSeriesMeta : list nat) (mem : list SeriesMeta) :
  if Bounds_Equals (Bounds meta) (Bounds otherMeta) then
    exists tags mem',
      combineMetaAndSeriesMeta meta otherMeta seriesMeta otherSeriesMeta mem
      = ((mkMetadata (Bounds meta) tags, seriesMeta, otherSeriesMeta, None),
         mem') /\
      sublist tags (Tags_ meta) /\
      (NoDup (map Name (Tags_ meta)) ->
       tags = List.filter (agrees (TagMap (Tags_ otherMeta))) (Tags_ meta))
  else
    combineMetaAndSeriesMeta meta otherMeta seriesMeta otherSeriesMeta mem
    = ((mkMetadata zeroBounds [], [], [], Some errMismatchedBounds), mem).
Proof.
  unfold combineMetaAndSeriesMeta.
  destruct (Bounds_Equals (Bounds meta) (Bounds otherMeta)); cbn [negb];
    [|done].
  cbv zeta.
  destruct (commonTagsLoop_split (Tags_ meta) (TagMap (Tags_ otherMeta))
              [] [] []) as (c & a & r & E & Hc & _).
  pose proof (commonTagsLoop_spec (Tags_ meta) (TagMap (Tags_ otherMeta))
                [] [] []) as Hspec.
  rewrite E in Hspec |- *. cbn [app] in *.
  eexists _, _. split; [reflexivity|]. split; [done|].
  intros Hnd. specialize (Hspec Hnd). congruence.
Qed.

(** What [combineMetaAndSeriesMeta] does to the series when the bounds
    agree and the names on the left are distinct.  Every series of the
    left slice gets, through [Add], the left tags that are not common;
    every series of the other slice gets the tags the other side holds
    with another value, then the tags of the other side whose name is not
    on the left, in the order of the range over the map.  A series that
    is in both slices gets both, in this order; every other cell is left
    as it was. *)
Theorem combineMetaAndSeriesMeta_series (meta otherMeta : Metadata)
    (seriesMeta otherSeriesMeta : list nat) (mem : list SeriesMeta) :
  Bounds_Equals (Bounds meta) (Bounds otherMeta) = true ->
  NoDup (map Name (Tags_ meta)) ->
  NoDup seriesMeta -> NoDup otherSeriesMeta ->
  let other := TagMap (Tags_ otherMeta) in
  let metaTagsToAdd :=
    List.filter (fun t => negb (agrees other t)) (Tags_ meta) in
  exists remaining,
    let otherMetaTagsToAdd :=
      omap (rival other) (Tags_ meta) ++ rangeTags remaining in
    (forall n, remaining !! n =
               if decide (n ∈ map Name (Tags_ meta)) then None
               else other !! n) /\
    let mem' := snd (combineMetaAndSeriesMeta meta otherMeta seriesMeta
                       otherSeriesMeta mem) in
    length mem' = length mem /\
    forall i,
      mem' !! i =
      (if decide (i ∈ otherSeriesMeta) then addTo otherMetaTagsToAdd else id)
        <$> ((if decide (i ∈ seriesMeta) then addTo metaTagsToAdd else id)
               <$> mem !! i).
Proof.
  intros Heq Hnd Hs1 Hs2 other metaTagsToAdd.
  exists (fold_left (fun m t => delete (Name t) m) (Tags_ meta) other).
  cbv zeta. split; [intros n; apply fold_delete_lookup|].
  unfold combineMetaAndSeriesMeta. rewrite Heq. cbn [negb]. cbv zeta.
  fold other. rewrite (commonTagsLoop_spec _ _ [] [] [] Hnd). cbn [app snd].
  fold metaTagsToAdd.
  set (oa := omap (rival other) (Tags_ meta) ++ rangeTags _).
  split.
  - rewrite (proj1 (addToEach_lookup oa otherSeriesMeta _ 0 Hs2)).
    by rewrite (proj1 (addToEach_lookup metaTagsToAdd seriesMeta _ 0 Hs1)).
  - intros i.
    rewrite (proj2 (addToEach_lookup oa otherSeriesMeta _ i Hs2)).
    by rewrite (proj2 (addToEach_lookup metaTagsToAdd seriesMeta _ i Hs1)).
Qed.

End CombineFacts.

Section FlattenFacts.
Import logical.
Context {models : Models}.

Lemma flattenAt_None (k : nat) (v : Tag) (series : list TagSlice)
    (mem : list Tag) :
  flattenAt k v series mem = None <->
  exists s, s ∈ series /\ (len s <= k)%nat.
Proof.
  revert mem. induction series as [|s series IH]; intros mem;
    cbn [flattenAt].
  - split; [done|]. intros (s & Hin & _). by apply elem_of_nil in Hin.
  - destruct (Nat.ltb_spec k (len s)) as [Hlt|Hge].
    + rewrite IH. split.
      * intros (s' & Hin & Hle). exists s'. split; [|done].
        apply elem_of_cons. by right.
      * intros (s' & Hin & Hle). apply elem_of_cons in Hin as [->|Hin];
          [lia|]. by exists s'.
    + split; [|done]. intros _. exists s. split; [|done].
      apply elem_of_cons. by left.
Qed.

Lemma flattenAt_Some (k : nat) (v : Tag) (series : list TagSlice)
    (mem mem' : list Tag) :
  flattenAt k v series mem = Some mem' ->
  length mem' = length mem /\
  (forall s, s ∈ series -> (off s + k < length mem)%nat ->
             mem' !! (off s + k)%nat = Some v) /\
  (forall i, (forall s, s ∈ series -> i <> (off s + k)%nat) ->
             mem' !! i = mem !! i).
Proof.
  revert mem. induction series as [|s series IH]; intros mem;
    cbn [flattenAt].
  - intros [= <-]. split; [done|]. split; [|done].
    intros s Hin. by apply elem_of_nil in Hin.
  - destruct (Nat.ltb_spec k (len s)) as [Hlt|Hge]; [|done].
    intros E. apply IH in E as (Hl & Hin & Hout).
    rewrite length_insert in Hl, Hin.
    split; [done|]. split.
    + intros s' Hs' Hb. apply elem_of_cons in Hs' as [->|Hs'].
      * destruct (decide ((off s + k)%nat
                            ∈ map (fun s'' => (off s'' + k)%nat) series))
          as [Hyes|Hno].
        -- apply list_elem_of_fmap in Hyes as (s'' & Heq & Hs'').
           rewrite Heq. apply Hin; [done|lia].
        -- rewrite Hout.
           ++ by apply list_lookup_insert_eq.
           ++ intros s'' Hs'' Heq. apply Hno.
              apply list_elem_of_fmap. eauto.
      * by apply Hin.
    + intros i Hi. rewrite Hout.
      * apply list_lookup_insert_ne. intros Heq.
        apply (Hi s); [apply elem_of_cons; by left|done].
      * intros s' Hs'. apply Hi. apply elem_of_cons. by right.
Qed.

Lemma flattenFrom_None (k n : nat) (metaTags : TagSlice)
    (series : list TagSlice) (mem : list Tag) :
  (forall s, s ∈ series -> (k <= len s)%nat) ->
  (off metaTags + k + n <= length mem)%nat ->
  flattenFrom k n metaTags series mem = None <->
  exists s, s ∈ series /\ (len s < k + n)%nat.
Proof.
  revert k mem. induction n as [|n IH]; intros k mem Hinv Hb;
    cbn [flattenFrom].
  - split; [done|]. intros (s & Hin & Hlt).
    specialize (Hinv s Hin). lia.
  - destruct (lookup_lt_is_Some_2 mem (off metaTags + k) ltac:(lia))
      as [v ->].
    destruct (flattenAt k v series mem) as [mem'|] eqn:E.
    + pose proof (flattenAt_Some _ _ _ _ _ E) as (Hl & _).
      assert (Hall : forall s, s ∈ series -> (S k <= len s)%nat).
      { intros s Hin.
        destruct (Nat.le_gt_cases (len s) k) as [Hle|]; [|lia].
        assert (flattenAt k v series mem = None)
          by (apply flattenAt_None; eauto).
        congruence. }
      rewrite IH by (done || lia).
      split; intros (s & Hin & Hlt); exists s; (split; [done|lia]).
    + split; [|done]. intros _.
      apply flattenAt_None in E as (s & Hin & Hle).
      exists s. split; [done|lia].
Qed.

(** [FlattenMetadata] writes by position: it panics exactly when some
    series has fewer tags than the metadata. *)
Theorem FlattenMetadata_panics_on_short_series (metaTags : TagSlice)
    (series : list TagSlice) (mem : list Tag) :
  (off metaTags + len metaTags <= length mem)%nat ->
  FlattenMetadata metaTags series mem = None <->
  exists s, s ∈ series /\ (len s < len metaTags)%nat.
Proof.
  intros Hb. unfold FlattenMetadata.
  rewrite flattenFrom_None; [done| |lia].
  intros s _. lia.
Qed.

Lemma flattenFrom_spec (n : nat) (metaTags : TagSlice)
    (series : list TagSlice) (mem0 : list Tag) :
  (off metaTags + len metaTags <= length mem0)%nat ->
  (forall s, s ∈ series ->
     (len metaTags <= len s)%nat /\ (off s + len s <= length mem0)%nat /\
     ((off s + len metaTags <= off metaTags)%nat \/
      (off metaTags + len metaTags <= off s)%nat)) ->
  (forall s1 s2, s1 ∈ series -> s2 ∈ series ->
     off s1 = off s2 \/ (off s1 + len metaTags <= off s2)%nat \/
     (off s2 + len metaTags <= off s1)%nat) ->
  forall k mem,
    (k + n = len metaTags)%nat ->
    length mem = length mem0 ->
    (forall s j, s ∈ series -> (j < k)%nat ->
                 mem !! (off s + j)%nat = mem0 !! (off metaTags + j)%nat) ->
    (forall i, (forall s, s ∈ series ->
                  ~ (off s <= i < off s + k)%nat) ->
               mem !! i = mem0 !! i) ->
    exists mem',
      flattenFrom k n metaTags series mem = Some mem' /\
      length mem' = length mem0 /\
      (forall s j, s ∈ series -> (j < len metaTags)%nat ->
                   mem' !! (off s + j)%nat = mem0 !! (off metaTags + j)%nat) /\
      (forall i, (forall s, s ∈ series ->
                    ~ (off s <= i < off s + len metaTags)%nat) ->
                 mem' !! i = mem0 !! i).
Proof.
  intros Hmeta Hser Hpair.
  induction n as [|n IH]; intros k mem Hk Hl I1 I2; cbn [flattenFrom].
  - replace k with (len metaTags) in * by lia. eauto.
  - assert (Hv : mem !! (off metaTags + k)%nat
                 = mem0 !! (off metaTags + k)%nat).
    { apply I2. intros s Hin. destruct (Hser s Hin) as (_ & _ & Hd). lia. }
    destruct (lookup_lt_is_Some_2 mem0 (off metaTags + k) ltac:(lia))
      as [v Hv0].
    rewrite Hv, Hv0.
    destruct (flattenAt k v series mem) as [mem1|] eqn:E.
    2: { apply flattenAt_None in E as (s & Hin & Hle).
         destruct (Hser s Hin) as (Hlen & _). lia. }
    apply flattenAt_Some in E as (Hl1 & Hin1 & Hout1).
    apply (IH (S k) mem1); [lia|congruence| |].
    + intros s j Hs Hj.
      destruct (decide (j = k)) as [->|Hne].
      * rewrite Hin1; [done|done|].
        destruct (Hser s Hs) as (? & ? & _). lia.
      * rewrite Hout1; [apply I1; [done|lia]|].
        intros s' Hs' Heq.
        destruct (Hpair s s' Hs Hs') as [Hoff|[Hd|Hd]]; lia.
    + intros i Hi. rewrite Hout1.
      * apply I2. intros s Hs. specialize (Hi s Hs). lia.
      * intros s Hs Heq. specialize (Hi s Hs). lia.
Qed.

(** [FlattenMetadata] on series that have at least as many tags as the
    metadata, whose tags lie apart from those of the metadata and from
    each other (or start at the same cell): the first tags of every series
    become the tags of the metadata, position by position, and every other
    tag stays.  The tags a series had at these positions are lost. *)
Theorem FlattenMetadata_overwrites_by_position (metaTags : TagSlice)
    (series : list TagSlice) (mem : list Tag) :
  (off metaTags + len metaTags <= length mem)%nat ->
  (forall s, s ∈ series ->
     (len metaTags <= len s)%nat /\ (off s + len s <= length mem)%nat /\
     ((off s + len metaTags <= off metaTags)%nat \/
      (off metaTags + len metaTags <= off s)%nat)) ->
  (forall s1 s2, s1 ∈ series -> s2 ∈ series ->
     off s1 = off s2 \/ (off s1 + len metaTags <= off s2)%nat \/
     (off s2 + len metaTags <= off s1)%nat) ->
  exists mem',
    FlattenMetadata metaTags series mem = Some mem' /\
    length mem' = length mem /\
    (forall s j, s ∈ series -> (j < len metaTags)%nat ->
                 mem' !! (off s + j)%nat = mem !! (off metaTags + j)%nat) /\
    (forall i, (forall s, s ∈ series ->
                  ~ (off s <= i < off s + len metaTags)%nat) ->
               mem' !! i = mem !! i).
Proof.
  intros Hmeta Hser Hpair. unfold FlattenMetadata.
  apply (flattenFrom_spec (len metaTags) metaTags series mem Hmeta Hser Hpair
           0 mem); [lia|done| |done].
  intros s j _ Hj. lia.
Qed.

End FlattenFacts.

(** *** The helpers on examples *)

Section LogicalExamples.
Import logical.
#[local] Existing Instance exampleModels.

Lemma DedupeMetadata_common_witness :
  exists commonKeys commonTags,
    DedupeMetadata (models := exampleModels) exampleSeries =
      (FromMap commonTags,
       map (fun meta => setTags (WithoutKeys (sTags meta) commonKeys) meta)
         exampleSeries) /\
    commonTags !! "a" = Some "1".
Proof.
  destruct (DedupeMetadata_common (models := exampleModels)
              (mkSeriesMeta (models := exampleModels) [tagA1; tagB2] "left")
              [mkSeriesMeta (models := exampleModels) [tagA1; tagB3] "right"])
    as (keys & m & E & _ & _ & _ & Hm & _).
  exists keys, m. split; [exact E|].
  apply (Hm ltac:(apply (bool_decide_unpack _); by vm_compute) tagA1).
  - apply elem_of_cons. by left.
  - repeat constructor.
Defined.

Example DedupeMetadata_example :
  DedupeMetadata (models := exampleModels) exampleSeries =
  ([tagA1],
   [ mkSeriesMeta (models := exampleModels) [tagB2] "left";
     mkSeriesMeta (models := exampleModels) [tagB3] "right" ]).
Proof. vm_compute. reflexivity. Qed.

Lemma appendValuesAtIndices_steps_witness :
  appendValuesAtIndices [1%Z; 0%Z]
    [StepOk [10; 11]; StepOk [20; 21]; StepErr "boom"; StepOk [30; 31]] [] =
  (Err "boom", [(0, 11); (0, 10); (1, 21); (1, 20)]%nat).
Proof.
  destruct (appendValuesAtIndices_steps
              [1%Z; 0%Z] [[10; 11]; [20; 21]]%nat [])
    as (_ & _ & H).
  - repeat constructor; cbn; lia.
  - apply (H "boom" [StepOk [30; 31]%nat]).
Defined.

Lemma appendValuesAtIndices_index_out_of_range_witness :
  appendValuesAtIndices [0%Z; 2%Z; 1%Z]
    [StepOk [10; 11; 12]; StepOk [20; 21]; StepOk [30; 31; 32]]%nat [] =
  (Panic, [(0, 10); (0, 12); (0, 11); (1, 20)]%nat).
Proof.
  apply (appendValuesAtIndices_index_out_of_range
           [0%Z] [1%Z] 2%Z [[10; 11; 12]]%nat [20; 21]%nat
           [StepOk [30; 31; 32]%nat] []).
  - repeat constructor; cbn; lia.
  - repeat constructor; cbn; lia.
  - right. cbn. lia.
Defined.

Lemma combineMetaAndSeriesMeta_result_witness :
  exists mem',
    combineMetaAndSeriesMeta exampleMeta exampleOtherMeta [0%nat] [1%nat]
      exampleSeries
    = ((mkMetadata (models := exampleModels) 10%Z [tagA1],
        [0%nat], [1%nat], None), mem').
Proof.
  pose proof (combineMetaAndSeriesMeta_result exampleMeta exampleOtherMeta
                [0%nat] [1%nat] exampleSeries) as H.
  assert (Hb : Bounds_Equals (Bounds exampleMeta) (Bounds exampleOtherMeta)
               = true) by reflexivity.
  rewrite Hb in H. destruct H as (tags & mem' & E & _ & Htags).
  exists mem'. rewrite E.
  rewrite (Htags ltac:(apply (bool_decide_unpack _); by vm_compute)).
  reflexivity.
Defined.

Lemma combineMetaAndSeriesMeta_series_witness :
  length (snd (combineMetaAndSeriesMeta exampleMeta exampleOtherMeta
                 [0%nat] [1%nat] exampleSeries)) = 2%nat.
Proof.
  destruct (combineMetaAndSeriesMeta_series exampleMeta exampleOtherMeta
              [0%nat] [1%nat] exampleSeries)
    as (remaining & _ & Hl & _).
  - reflexivity.
  - apply (bool_decide_unpack _). by vm_compute.
  - apply (bool_decide_unpack _). by vm_compute.
  - apply (bool_decide_unpack _). by vm_compute.
  - exact Hl.
Defined.

(** The two sides end with their own value of [b]; the tag [c], which
    only the other side had, goes to the series of the other side. *)
Example combineMetaAndSeriesMeta_example :
  combineMetaAndSeriesMeta exampleMeta exampleOtherMeta [0%nat] [1%nat]
    exampleSeries =
  ((mkMetadata (models := exampleModels) 10%Z [tagA1],
    [0%nat], [1%nat], None),
   [ mkSeriesMeta (models := exampleModels) [tagA1; tagB2; tagB2] "left";
     mkSeriesMeta (models := exampleModels)
       [tagA1; tagB3; tagB3; tagC4] "right" ]).
Proof. vm_compute. reflexivity. Qed.

Lemma FlattenMetadata_panics_on_short_series_witness :
  FlattenMetadata (mkTagSlice 0 2)
    [mkTagSlice 2 3; mkTagSlice 5 1]
    [tagA1; tagB2; tagC4; tagC4; tagC4; tagB3] = None.
Proof.
  apply (FlattenMetadata_panics_on_short_series).
  - cbn. lia.
  - exists (mkTagSlice 5 1). split; [|cbn; lia].
    apply elem_of_cons. right. apply elem_of_cons. by left.
Defined.

Lemma FlattenMetadata_overwrites_by_position_witness :
  exists mem',
    FlattenMetadata (mkTagSlice 0 2)
      [mkTagSlice 2 3] [tagA1; tagB2; tagC4; tagB3; tagC4] = Some mem' /\
    mem' !! 2%nat = Some tagA1 /\ mem' !! 3%nat = Some tagB2.
Proof.
  destruct (FlattenMetadata_overwrites_by_position
              (mkTagSlice 0 2) [mkTagSlice 2 3]
              [tagA1; tagB2; tagC4; tagB3; tagC4])
    as (mem' & E & _ & Hin & _).
  - cbn. lia.
  - intros s Hs. apply list_elem_of_singleton in Hs as ->. cbn. lia.
  - intros s1 s2 Hs1 Hs2. apply list_elem_of_singleton in Hs1 as ->.
    apply list_elem_of_singleton in Hs2 as ->. by left.
  - exists mem'. split; [exact E|]. split.
    + apply (Hin (mkTagSlice 2 3) 0%nat); [by apply list_elem_of_singleton|].
      cbn. lia.
    + apply (Hin (mkTagSlice 2 3) 1%nat); [by apply list_elem_of_singleton|].
      cbn. lia.
Defined.

(** The series had the tags [c=4; b=3; c=4]: its first two are replaced by
    the tags of the metadata, whatever their names. *)
Example FlattenMetadata_example :
  FlattenMetadata (mkTagSlice 0 2)
    [mkTagSlice 2 3] [tagA1; tagB2; tagC4; tagB3; tagC4]
  = Some [tagA1; tagB2; tagA1; tagB2; tagC4].
Proof. reflexivity. Qed.

End LogicalExamples.
